(** * A sparse grid world with a mutation overlay: the token-crafting map game

    Shallow embedding of the final iteration of the game (the single-slot
    inventory variant with [modifiedCaches], [cellRecords], [WIN_THRESHOLD]).

    Conventions of the embedding.
    - A JavaScript [number] that the program only ever uses as a grid index or
      a token value is a [Z]; the program reaches such numbers by rounding,
      flooring, adding one and doubling, and the embedding does not model the
      loss of precision of a double beyond 2^53.
    - A latitude, a longitude or a luck value is a rational [Q] and the
      arithmetic on it is exact: binary64 rounding is not modelled.
    - A [Map<string, V>] is a [gmap string V].  [has]/[get] is the lookup,
      [set] the insertion, [delete] the deletion.
    - The Leaflet objects (map, rectangles, circle markers, popups) are kept
      only as far as they decide which handler the user can reach: a
      rectangle is the popup [drawCell] bound to it, a cache marker always
      carries the pick-up/place popup of its cell key.
    - Calls that only repaint ([updateCacheMarkerColor],
      [updateAllCacheColors], [updateInventoryDisplay], [renderCraftingUI],
      the win banner built by [triggerWin]) have no effect on the state
      below and are left out. *)

From Stdlib Require Import ZArith QArith Qround Lqa String Ascii DecimalString DecimalZ DecimalPos Lia.
From stdpp Require Import gmap strings list fin_maps.

Open Scope Z_scope.

(** ** JavaScript helpers *)

(** [`${n}`] and [Number.prototype.toString] on an integral number: an
    optional minus sign and the decimal digits, no leading zero. *)
Definition numToString (n : Z) : string :=
  NilZero.string_of_int (Z.to_int n).

(** [Number(s)] restricted to decimal integer literals, the only strings the
    program passes to it (pieces of a cell key).  [None] is [NaN]. *)
Definition Number (s : string) : option Z :=
  Z.of_int <$> NilZero.int_of_string s.

(** [s.split(",")]. *)
Fixpoint split_comma (s : string) : list string :=
  match s with
  | EmptyString => [EmptyString]
  | String c rest =>
      if Ascii.eqb c ","%char then EmptyString :: split_comma rest
      else match split_comma rest with
           | piece :: pieces => String c piece :: pieces
           | [] => [String c EmptyString]
           end
  end.

(** [Array.prototype.toString]: the elements joined by commas. *)
Fixpoint arrayToString (xs : list string) : string :=
  match xs with
  | [] => EmptyString
  | [x] => x
  | x :: rest => String.append x (String ","%char (arrayToString rest))
  end.

(** [Math.floor] and [Math.round] (ties go towards +infinity). *)
Definition Math_floor (x : Q) : Z := Qfloor x.
Definition Math_round (x : Q) : Z := Qfloor (x + (1 # 2)).

(** [a < b] on numbers. *)
Definition Qltb (a b : Q) : bool := negb (Qle_bool b a).

(** ** Constants of the game *)

Record LatLng := { lat : Q; lng : Q }.

Definition CLASSROOM_LATLNG : LatLng :=
  {| lat := 36997936938057016 # 1000000000000000;
     lng := - (12205703507501151 # 100000000000000) |}.

Definition TILE_DEGREES : Q := 1 # 10000.
Definition CACHE_SPAWN_PROBABILITY : Q := 1 # 10.
Definition PROXIMITY_CELLS : Z := 1.
Definition WIN_THRESHOLD : Z := 5.

(** ** Coordinate mapping *)

Definition Cell : Type := Z * Z.

Definition latLngToCell (position : LatLng) : Cell :=
  let latPosition :=
    Math_round ((lat position - lat CLASSROOM_LATLNG) / TILE_DEGREES) in
  let lngPosition :=
    Math_round ((lng position - lng CLASSROOM_LATLNG) / TILE_DEGREES) in
  (latPosition, lngPosition).

Definition cellDistance (a b : Cell) : Z :=
  Z.max (Z.abs (a.1 - b.1)) (Z.abs (a.2 - b.2)).

Definition cellKey (i j : Z) : string :=
  String.append (numToString i) (String ","%char (numToString j)).

(** The rectangle [drawCell] draws for cell [(i, j)]: south-west and
    north-east corners. *)
Definition cellBounds (i j : Z) : LatLng * LatLng :=
  let origin := CLASSROOM_LATLNG in
  ({| lat := lat origin + inject_Z i * TILE_DEGREES;
      lng := lng origin + inject_Z j * TILE_DEGREES |},
   {| lat := lat origin + inject_Z (i + 1) * TILE_DEGREES;
      lng := lng origin + inject_Z (j + 1) * TILE_DEGREES |}).

(** ** Program state *)

(** What the user reaches by clicking the rectangle of a cell: the popup
    with the "Drop token here" button (cell drawn while its overlay entry was
    [null]), the plain "Cell: i, j" text (cell drawn with no cache), or
    nothing (the cell was drawn with a cache marker, which carries its own
    popup). *)
Inductive RectPopup := DropPopup | InfoPopup | NoPopup.

(** [type CellRecord = { i, j, rect }]. *)
Record CellRecord := { cr_i : Z; cr_j : Z; rect : RectPopup }.

(** An entry of [caches]: [{ marker, value }]; the marker is a rendering
    handle and is not kept.  The circle markers on the Leaflet map are
    therefore not part of the state: every statement below is about the
    program's maps ([caches], [modifiedCaches], [cellRecords]), not about
    what Leaflet draws.  (The drop handler overwrites the entry of a key
    without removing the marker of the entry it replaces, so a marker can
    stay on the Leaflet map without an entry in [caches].) *)
Record Cache := { value : Z }.

(** The module-level variables.  [modifiedCaches] maps a key to [Some v] for a
    token and to [None] for [null], an explicitly emptied cell. *)
Record State := mkState {
  playerMarker : LatLng;
  inventory : option Z;
  caches : gmap string Cache;
  modifiedCaches : gmap string (option Z);
  cellRecords : gmap string CellRecord;
  hasCrafted : bool
}.

Definition setPlayer (p : LatLng) (st : State) : State :=
  mkState p (inventory st) (caches st) (modifiedCaches st) (cellRecords st)
    (hasCrafted st).
Definition setInventory (inv : option Z) (st : State) : State :=
  mkState (playerMarker st) inv (caches st) (modifiedCaches st)
    (cellRecords st) (hasCrafted st).
Definition setCaches (c : gmap string Cache) (st : State) : State :=
  mkState (playerMarker st) (inventory st) c (modifiedCaches st)
    (cellRecords st) (hasCrafted st).
Definition setModified (m : gmap string (option Z)) (st : State) : State :=
  mkState (playerMarker st) (inventory st) (caches st) m (cellRecords st)
    (hasCrafted st).
Definition setRecords (r : gmap string CellRecord) (st : State) : State :=
  mkState (playerMarker st) (inventory st) (caches st) (modifiedCaches st) r
    (hasCrafted st).
Definition setCrafted (b : bool) (st : State) : State :=
  mkState (playerMarker st) (inventory st) (caches st) (modifiedCaches st)
    (cellRecords st) b.

(** The state the module is loaded with, before the first
    [updateVisibleCells()]. *)
Definition initial : State :=
  mkState CLASSROOM_LATLNG None ∅ ∅ ∅ false.

(** The text a handler writes into the popup's message line. *)
Inductive Msg :=
| TooFar (dist : Z)     (* "Too far (${dist} cells). Move ..." *)
| AlreadyCarrying       (* "You're already carrying a token. ..." *)
| PickedUp              (* "Picked up." *)
| NothingCarried        (* "You have no token to place." *)
| NothingToDrop         (* "You have no token to drop." *)
| Crafted (v : Z)       (* "Placed token and crafted ${v}." *)
| ValueMismatch         (* "Token values do not match; cannot place here." *)
| Dropped (v : Z).      (* "Dropped token (${val})." *)

(** [map.getBounds()]: the four accessors the program reads. *)
Record LatLngBounds := {
  getSouth : Q; getNorth : Q; getWest : Q; getEast : Q
}.

(** What one call of [updateVisibleCells] created and destroyed: the cells
    handed to [drawCell] and the cells handed to [removeCell], in call
    order. *)
Record Delta := { enteredCells : list Cell; leftCells : list Cell }.

Inductive Key := KeyW | KeyS | KeyA | KeyD.

(** What drives the program: a movement key (with the bounds the map reports
    during the call), the map's [moveend] (with its bounds), and a click on
    one of the three buttons in the popup of cell [(i, j)]. *)
Inductive Event :=
| Keydown (k : Key) (bounds : LatLngBounds)
| MoveEnd (bounds : LatLngBounds)
| ClickPickup (i j : Z)
| ClickPlace (i j : Z)
| ClickDrop (i j : Z).

Section Game.

(** [luck] from [_luck.ts], a deterministic hash of its string argument into
    the unit interval.  Its source is not part of the repository snapshot;
    the development holds for any function. *)
Variable luck : string → Q.

Definition getPlayerCell (st : State) : Cell :=
  latLngToCell (playerMarker st).

Definition triggerWin (st : State) : State :=
  if hasCrafted st then st else setCrafted true st.

(** The token value [drawCell] gives a baseline cache from its second luck
    roll. *)
Definition initialValue (r : Q) : Z :=
  if Qltb r (6 # 10) then 1
  else if Qltb r (9 # 10) then 2
  else if Qltb r (97 # 100) then 3
  else if Qltb r (995 # 1000) then 4
  else 5.

(** [drawCell(i, j)]: returns the rectangle (its popup) and registers the
    cache marker in [caches] when the cell has one. *)
Definition drawCell (i j : Z) (st : State) : RectPopup * State :=
  let key := cellKey i j in
  match modifiedCaches st !! key with
  | Some None => (DropPopup, st)
  | Some (Some val) =>
      (NoPopup, setCaches (<[key := {| value := val |}]> (caches st)) st)
  | None =>
      if Qltb (luck (arrayToString [numToString i; numToString j]))
              CACHE_SPAWN_PROBABILITY
      then
        let r := luck (arrayToString
                         [numToString i; numToString j; "initialValue"%string]) in
        let cacheValue := initialValue r in
        (NoPopup,
         setCaches (<[key := {| value := cacheValue |}]> (caches st)) st)
      else (InfoPopup, st)
  end.

Definition cellRendered (i j : Z) (st : State) : State :=
  let key := cellKey i j in
  match cellRecords st !! key with
  | Some _ => st
  | None =>
      let '(r, st1) := drawCell i j st in
      setRecords (<[key := {| cr_i := i; cr_j := j; rect := r |}]>
                    (cellRecords st1)) st1
  end.

Definition removeCell (i j : Z) (st : State) : State :=
  let key := cellKey i j in
  let st1 := match cellRecords st !! key with
             | Some _ => setRecords (delete key (cellRecords st)) st
             | None => st
             end in
  match caches st1 !! key with
  | Some _ => setCaches (delete key (caches st1)) st1
  | None => st1
  end.

(** [const [iStr, jStr] = key.split(","); Number(iStr), Number(jStr)]. *)
Definition parseKey (key : string) : option Cell :=
  match split_comma key with
  | iStr :: jStr :: _ =>
      match Number iStr, Number jStr with
      | Some i, Some j => Some (i, j)
      | _, _ => None
      end
  | _ => None
  end.

(** The cells the two nested loops of [updateVisibleCells] visit, in order. *)
Definition wantedCells (southMin northMax westMin eastMax : Z) : list Cell :=
  i ← seqZ southMin (northMax + 1 - southMin);
  j ← seqZ westMin (eastMax + 1 - westMin);
  [(i, j)].

(** Body of the inner loop. *)
Definition visitCell (acc : State * gset string * list Cell) (c : Cell)
  : State * gset string * list Cell :=
  let '(st, wanted, ent) := acc in
  let key := cellKey c.1 c.2 in
  match cellRecords st !! key with
  | None => (cellRendered c.1 c.2 st, {[key]} ∪ wanted, ent ++ [c])
  | Some _ => (st, {[key]} ∪ wanted, ent)
  end.

(** Body of the removal loop.  A key that does not split into two integer
    literals would give [NaN] indices and a key [removeCell] cannot find;
    every key the program stores is built by [cellKey]. *)
Definition evictKey (wanted : gset string) (acc : State * list Cell)
    (key : string) : State * list Cell :=
  let '(st, lft) := acc in
  if decide (key ∈ wanted) then (st, lft)
  else match parseKey key with
       | Some (i, j) => (removeCell i j st, lft ++ [(i, j)])
       | None => (st, lft)
       end.

(** [updateVisibleCells()], with the value of [map.getBounds()] as argument.
    [Array.from(cellRecords.keys())] is the key list of the map; JavaScript
    lists it in insertion order, [map_to_list] in the order of the map's
    representation, and the resulting state does not depend on the order. *)
Definition updateVisibleCells (bounds : LatLngBounds) (st : State)
  : State * Delta :=
  let south := getSouth bounds in
  let north := getNorth bounds in
  let west := getWest bounds in
  let east := getEast bounds in
  let southMin := Math_floor ((south - lat CLASSROOM_LATLNG) / TILE_DEGREES) in
  let northMax := Math_floor ((north - lat CLASSROOM_LATLNG) / TILE_DEGREES) in
  let westMin := Math_floor ((west - lng CLASSROOM_LATLNG) / TILE_DEGREES) in
  let eastMax := Math_floor ((east - lng CLASSROOM_LATLNG) / TILE_DEGREES) in
  let '(st1, wanted, ent) :=
    foldl visitCell (st, ∅, []) (wantedCells southMin northMax westMin eastMax) in
  let '(st2, lft) :=
    foldl (evictKey wanted) (st1, []) (map_to_list (cellRecords st1)).*1 in
  (st2, {| enteredCells := ent; leftCells := lft |}).

Definition movePlayerByCells (latitudeUpdate longitudeUpdate : Z)
    (bounds : LatLngBounds) (st : State) : State :=
  let current := playerMarker st in
  let newLat := (lat current + inject_Z latitudeUpdate * TILE_DEGREES)%Q in
  let newLng := (lng current + inject_Z longitudeUpdate * TILE_DEGREES)%Q in
  let newLatLng := {| lat := newLat; lng := newLng |} in
  (updateVisibleCells bounds (setPlayer newLatLng st)).1.

(** *** Click handlers

    The popup of a cache marker is rebuilt each time it opens and binds
    [cached = caches.get(key)!]; the handlers below take that object.
    Leaflet closes the popup of a layer when the layer is removed, so a
    click reaches a handler whose [cached] is still the object stored in
    [caches] under [key]: the assignment [cached.value = cached.value * 2]
    is an update of that entry. *)

Definition pickupClick (i j : Z) (cached : Cache) (st : State) : State * Msg :=
  let key := cellKey i j in
  let playerCell := getPlayerCell st in
  let dist := cellDistance playerCell (i, j) in
  if dist <=? PROXIMITY_CELLS then
    match inventory st with
    | None =>
        (setModified (<[key := None]> (modifiedCaches st))
           (setInventory (Some (value cached))
              (setCaches (delete key (caches st)) st)),
         PickedUp)
    | Some _ => (st, AlreadyCarrying)
    end
  else (st, TooFar dist).

Definition placeClick (i j : Z) (cached : Cache) (st : State) : State * Msg :=
  let key := cellKey i j in
  let playerCell := getPlayerCell st in
  let dist := cellDistance playerCell (i, j) in
  if PROXIMITY_CELLS <? dist then (st, TooFar dist)
  else match inventory st with
       | None => (st, NothingCarried)
       | Some carried =>
           if carried =? value cached then
             let doubled := value cached * 2 in
             let st1 :=
               setInventory None
                 (setModified (<[key := Some doubled]> (modifiedCaches st))
                    (setCaches (<[key := {| value := doubled |}]> (caches st))
                       st)) in
             (if negb (hasCrafted st1) && (WIN_THRESHOLD <=? doubled)
              then triggerWin st1 else st1,
              Crafted doubled)
           else (st, ValueMismatch)
       end.

Definition dropClick (i j : Z) (st : State) : State * Msg :=
  let key := cellKey i j in
  let playerCell := getPlayerCell st in
  let dist := cellDistance playerCell (i, j) in
  if PROXIMITY_CELLS <? dist then (st, TooFar dist)
  else match inventory st with
       | None => (st, NothingToDrop)
       | Some val =>
           (setInventory None
              (setModified (<[key := Some val]> (modifiedCaches st))
                 (setCaches (<[key := {| value := val |}]> (caches st)) st)),
            Dropped val)
       end.

(** A pick-up or place click needs the popup of the cell's cache marker,
    which is built from [caches.get(key)]; a drop click needs the cell's
    rectangle to carry the drop popup.  [None]: the button is not there. *)
Definition requestPickup (i j : Z) (st : State) : option (State * Msg) :=
  cached ← caches st !! cellKey i j; Some (pickupClick i j cached st).

Definition requestPlace (i j : Z) (st : State) : option (State * Msg) :=
  cached ← caches st !! cellKey i j; Some (placeClick i j cached st).

Definition requestDrop (i j : Z) (st : State) : option (State * Msg) :=
  match cellRecords st !! cellKey i j with
  | Some {| rect := DropPopup |} => Some (dropClick i j st)
  | _ => None
  end.

Definition keyDelta (k : Key) : Z * Z :=
  match k with
  | KeyW => (1, 0)
  | KeyS => (-1, 0)
  | KeyA => (0, -1)
  | KeyD => (0, 1)
  end.

(** One event, processed to completion. *)
Definition handle (ev : Event) (st : State) : option (State * option Msg) :=
  match ev with
  | Keydown k bounds =>
      Some (movePlayerByCells (keyDelta k).1 (keyDelta k).2 bounds st, None)
  | MoveEnd bounds => Some ((updateVisibleCells bounds st).1, None)
  | ClickPickup i j => prod_map id Some <$> requestPickup i j st
  | ClickPlace i j => prod_map id Some <$> requestPlace i j st
  | ClickDrop i j => prod_map id Some <$> requestDrop i j st
  end.

(** Events the user cannot issue (button absent) leave the state alone. *)
Definition exec1 (st : State) (ev : Event) : State :=
  match handle ev st with
  | Some (st', _) => st'
  | None => st
  end.

Definition exec (evs : list Event) (st : State) : State :=
  foldl exec1 st evs.

Inductive reachable : State → Prop :=
| reachable_initial : reachable initial
| reachable_step st ev st' m :
    reachable st → handle ev st = Some (st', m) → reachable st'.

(** ** The resolver, as the specification words it *)

Inductive CellContent := NoCache | CacheOf (v : Z).

(** The deterministic generator: presence and value of the baseline cache. *)
Definition generate (i j : Z) : option Z :=
  if Qltb (luck (arrayToString [numToString i; numToString j]))
          CACHE_SPAWN_PROBABILITY
  then Some (initialValue
               (luck (arrayToString
                        [numToString i; numToString j; "initialValue"%string])))
  else None.

(** Overlay entry first, generator otherwise. *)
Definition resolve (overlay : gmap string (option Z)) (i j : Z) : CellContent :=
  match overlay !! cellKey i j with
  | Some None => NoCache
  | Some (Some v) => CacheOf v
  | None => match generate i j with
            | Some v => CacheOf v
            | None => NoCache
            end
  end.

End Game.

(** ** Auxiliary notions for the proofs *)

(** A string without a comma. *)
Fixpoint commaFree (s : string) : bool :=
  match s with
  | EmptyString => true
  | String c rest => negb (Ascii.eqb c ","%char) && commaFree rest
  end.

(** The key of a cell. *)
Definition keyOf (c : Cell) : string := cellKey c.1 c.2.

(** Deleting a key from both [cellRecords] and [caches]: what [removeCell]
    amounts to. *)
Definition dropKey (key : string) (st : State) : State :=
  setCaches (delete key (caches st))
    (setRecords (delete key (cellRecords st)) st).

(** The grid indices [updateVisibleCells] computes from the map bounds. *)
Definition southMin (b : LatLngBounds) : Z :=
  Math_floor ((getSouth b - lat CLASSROOM_LATLNG) / TILE_DEGREES).
Definition northMax (b : LatLngBounds) : Z :=
  Math_floor ((getNorth b - lat CLASSROOM_LATLNG) / TILE_DEGREES).
Definition westMin (b : LatLngBounds) : Z :=
  Math_floor ((getWest b - lng CLASSROOM_LATLNG) / TILE_DEGREES).
Definition eastMax (b : LatLngBounds) : Z :=
  Math_floor ((getEast b - lng CLASSROOM_LATLNG) / TILE_DEGREES).

(** Cell [(i, j)] has its quantized coordinates inside the viewport. *)
Definition inView (b : LatLngBounds) (i j : Z) : Prop :=
  southMin b ≤ i ≤ northMax b ∧ westMin b ≤ j ≤ eastMax b.

(** The cells the loops of [updateVisibleCells] visit for given bounds. *)
Definition viewCells (b : LatLngBounds) : list Cell :=
  wantedCells (southMin b) (northMax b) (westMin b) (eastMax b).

(** Invariants of the reachable states. *)
Section Invariants.
Variable luck : string → Q.

(** Every record is filed under the key of the cell it names. *)
Definition records_keyed (st : State) : Prop :=
  ∀ k r, cellRecords st !! k = Some r → k = cellKey (cr_i r) (cr_j r).

(** A rectangle with the drop popup belongs to a cell with an overlay
    entry. *)
Definition drop_has_entry (st : State) : Prop :=
  ∀ k r, cellRecords st !! k = Some r → rect r = DropPopup →
    is_Some (modifiedCaches st !! k).

(** An entry of [caches] exists only for a cell that has a record. *)
Definition caches_materialized (st : State) : Prop :=
  ∀ k, is_Some (caches st !! k) → is_Some (cellRecords st !! k).

(** The cache entry a resolved content is shown as. *)
Definition shown (c : CellContent) : option Cache :=
  match c with
  | CacheOf v => Some {| value := v |}
  | NoCache => None
  end.

(** A materialized cell shows what the resolver gives for it. *)
Definition view_resolved (st : State) : Prop :=
  ∀ k r, cellRecords st !! k = Some r →
    caches st !! k = shown (resolve luck (modifiedCaches st) (cr_i r) (cr_j r)).

Definition invariant (st : State) : Prop :=
  records_keyed st ∧ drop_has_entry st ∧ caches_materialized st ∧
  view_resolved st.

(** The first loop of [updateVisibleCells] on the state alone, and the
    removals of the second. *)
Definition renderAll (cells : list Cell) (st : State) : State :=
  foldl (λ s c, cellRendered luck c.1 c.2 s) st cells.

Definition dropAll (keys : list string) (st : State) : State :=
  foldl (λ s k, dropKey k s) st keys.

(** The keys the second loop removes. *)
Definition evicted (b : LatLngBounds) (st : State) : list string :=
  filter (.∉ (list_to_set (keyOf <$> viewCells b) : gset string))
    (map_to_list (cellRecords (renderAll (viewCells b) st))).*1.

(** The state after a successful drop of the token [v] on the cell of
    [key]: what the drop handler writes ([caches.set], [modifiedCaches.set],
    [inventory = null]), everything else as before. *)
Definition droppedOn (key : string) (v : Z) (st : State) : State :=
  setInventory None
    (setModified (<[key := Some v]> (modifiedCaches st))
       (setCaches (<[key := {| value := v |}]> (caches st)) st)).

(** An event that only moves the player or the viewport. *)
Definition isViewportEvent (ev : Event) : Prop :=
  match ev with
  | Keydown _ _ | MoveEnd _ => True
  | _ => False
  end.

(** [st'] is reached from [st] by finitely many events. *)
Inductive steps : State → State → Prop :=
| steps_refl st : steps st st
| steps_next st ev st' m st'' :
    handle luck ev st = Some (st', m) → steps st' st'' → steps st st''.

End Invariants.

(** ** A small concrete world, for running the program *)

(** A luck function under which cells (0,0), (0,1) and (0,2) spawn a cache of
    value 1, cells (1,0) and (2,0) a cache of value 3, and no other cell
    spawns anything. *)
Definition demoLuck (s : string) : Q :=
  if bool_decide (s ∈ ["0,0"; "0,1"; "0,2"; "1,0"; "2,0"; "0,0,initialValue";
                       "0,1,initialValue"; "0,2,initialValue"]%string)
  then 0
  else if bool_decide (s ∈ ["1,0,initialValue"; "2,0,initialValue"]%string)
       then 19 # 20
       else 1 # 2.

(** Map bounds whose corners lie in the middle of cells [(i0, j0)] and
    [(i1, j1)]. *)
Definition viewAt (i0 i1 j0 j1 : Z) : LatLngBounds :=
  {| getSouth := lat CLASSROOM_LATLNG + inject_Z i0 * TILE_DEGREES + (1 # 20000);
     getNorth := lat CLASSROOM_LATLNG + inject_Z i1 * TILE_DEGREES + (1 # 20000);
     getWest := lng CLASSROOM_LATLNG + inject_Z j0 * TILE_DEGREES + (1 # 20000);
     getEast := lng CLASSROOM_LATLNG + inject_Z j1 * TILE_DEGREES + (1 # 20000) |}.

(** The game after its first [updateVisibleCells()] over cells
    [-2..2] x [-2..2]. *)
Definition demoStart : State :=
  exec demoLuck [MoveEnd (viewAt (-2) 2 (-2) 2)] initial.

(** ... and after picking up the token of cell (0,0). *)
Definition demoCarrying : State :=
  exec demoLuck [ClickPickup 0 0] demoStart.

(** ... and after the viewport left cell (0,0) and came back to it. *)
Definition demoReturned : State :=
  exec demoLuck [MoveEnd (viewAt 5 6 5 6); MoveEnd (viewAt (-2) 2 (-2) 2)]
    demoCarrying.

(** From the start: carrying the token 3 of cell (1,0) and standing on that
    cell, next to the cache of value 3 at (2,0). *)
Definition demoNextToThree : State :=
  exec demoLuck [ClickPickup 1 0; Keydown KeyW (viewAt (-2) 2 (-2) 2)]
    demoStart.

(** After the return to cell (0,0): the token 1 dropped back on (0,0) and
    the token 3 of cell (1,0) picked up. *)
Definition demoDroppedOnce : State :=
  exec demoLuck [ClickDrop 0 0; ClickPickup 1 0] demoReturned.

(** A position in the middle of the rectangle of cell (0,0). *)
Definition midCell : LatLng :=
  {| lat := lat CLASSROOM_LATLNG + (1 # 20000);
     lng := lng CLASSROOM_LATLNG + (1 # 20000) |}.

(** Evaluation of the program on a concrete input. *)
Ltac run := vm_compute; reflexivity.
Ltac run_some := eexists; vm_compute; reflexivity.
Ltac run_le := apply Z.leb_le; vm_compute; reflexivity.

(** ** Marker styling *)

(** The options [updateCacheMarkerColor] passes to [setStyle]. *)
Record PathStyle := { color : string; fillColor : string; fillOpacity : Q }.

(** [valueFill[v] ?? "#cccccc"]. *)
Definition valueFill (v : Z) : string :=
  if v =? 1 then "#fee8c8"%string
  else if v =? 2 then "#ffd59e"%string
  else if v =? 3 then "#ffb482"%string
  else if v =? 4 then "#ff8a5f"%string
  else if v =? 5 then "#ff5e3a"%string
  else "#cccccc"%string.

(** [updateCacheMarkerColor(key)]: the style given to the marker of [key], or
    [None] when [caches] has no entry for [key] (early return).  A key that
    does not parse gives [NaN] indices, a [NaN] distance and a failed
    comparison. *)
Definition updateCacheMarkerColor (key : string) (st : State)
  : option PathStyle :=
  match caches st !! key with
  | None => None
  | Some entry =>
      let pickable :=
        match parseKey key with
        | Some (i, j) =>
            let playerCell := getPlayerCell st in
            let dist := cellDistance playerCell (i, j) in
            (dist <=? PROXIMITY_CELLS) &&
            (if inventory st is None then true else false)
        | None => false
        end in
      let fill := valueFill (value entry) in
      let stroke :=
        if pickable then "#2a9d41"%string else "#5f5f5fff"%string in
      Some {| color := stroke; fillColor := fill; fillOpacity := 9 # 10 |}
  end.

(** [updateAllCacheColors()]: the style of every marker in [caches]. *)
Definition updateAllCacheColors (st : State) : gmap string PathStyle :=
  map_imap (λ key _, updateCacheMarkerColor key st) (caches st).

(** ** Token values *)

(** A value obtained from a baseline value (1 to 5) by doubling it some
    number of times. *)
Definition tokenValue (v : Z) : Prop :=
  ∃ base k, 1 ≤ base ≤ 5 ∧ 0 ≤ k ∧ v = base * 2 ^ k.

(** The inventory and the overlay hold token values only. *)
Definition tokens_ok (st : State) : Prop :=
  (∀ v, inventory st = Some v → tokenValue v) ∧
  (∀ k v, modifiedCaches st !! k = Some (Some v) → tokenValue v).

(** A message that reports a rejected request. *)
Definition isRejection (m : Msg) : bool :=
  match m with
  | TooFar _ | AlreadyCarrying | NothingCarried | NothingToDrop
  | ValueMismatch => true
  | PickedUp | Crafted _ | Dropped _ => false
  end.

(** ** The list inventory of the earlier iteration

    The iteration of the program before the single-slot inventory keeps
    [const inventory: number[] = []] and crafts inside the inventory. *)

(** [inventory.reduce((s, v) => s + v, 0)], the total
    [updateInventoryDisplay] shows. *)
Definition inventoryTotal (inventory : list Z) : Z :=
  foldl (λ s v, s + v) 0 inventory.

(** [groupInventory()]: how often each value occurs. *)
Definition groupInventory (inventory : list Z) : gmap Z nat :=
  foldl (λ counts v, <[v := (default 0 (counts !! v) + 1)%nat]> counts)
    ∅ inventory.

(** [canCraft(value)]. *)
Definition canCraft (inventory : list Z) (value : Z) : bool :=
  (2 <=? default 0 (groupInventory inventory !! value))%nat.

(** The removal loop of [doCraft]:
    [for (let i = inventory.length - 1; i >= 0 && removed < 2; i--)].
    The argument [n] is [i + 1]; [inventory.splice(i, 1)] deletes position
    [i]. *)
Fixpoint craftLoop (value : Z) (n : nat) (inventory : list Z) (removed : nat)
  : list Z :=
  match n with
  | O => inventory
  | S i =>
      if (removed <? 2)%nat then
        match inventory !! i with
        | Some x =>
            if x =? value
            then craftLoop value i (delete i inventory) (S removed)
            else craftLoop value i inventory removed
        | None => craftLoop value i inventory removed
        end
      else inventory
  end.

(** [doCraft(value)]: the inventory afterwards and the returned flag. *)
Definition doCraft (value : Z) (inventory : list Z) : list Z * bool :=
  if negb (canCraft inventory value) then (inventory, false)
  else (craftLoop value (length inventory) inventory 0 ++ [value * 2], true).

(** The message line of a craft button. *)
Inductive CraftMsg :=
| InvalidToken      (* "Invalid token value." *)
| NotEnough         (* "Not enough matching tokens to craft." *)
| CraftedOk         (* "Crafted successfully." *)
| CraftFailed.      (* "Craft failed." *)

(** The click handler of the craft button for [value].  On integers the
    validation [!Number.isFinite(value) || value <= 0 ||
    !Number.isInteger(value)] is [value <= 0]. *)
Definition craftClick (value : Z) (inventory : list Z) : list Z * CraftMsg :=
  if value <=? 0 then (inventory, InvalidToken)
  else if negb (canCraft inventory value) then (inventory, NotEnough)
  else
    let '(inventory', ok) := doCraft value inventory in
    if ok then (inventory', CraftedOk) else (inventory', CraftFailed).

(** * Properties *)

(** ** Cell keys: printing and parsing *)

Lemma split_comma_commaFree s : commaFree s = true → split_comma s = [s].
Proof.
  induction s as [|c rest IH]; simpl; [done|].
  destruct (Ascii.eqb c ","); simpl; [done|].
  intros Hrest. by rewrite (IH Hrest).
Qed.

Lemma split_comma_append a b :
  commaFree a = true →
  split_comma (String.append a (String ","%char b)) = a :: split_comma b.
Proof.
  induction a as [|c rest IH]; simpl; [done|].
  destruct (Ascii.eqb c ","); simpl; [done|].
  intros Hrest. by rewrite (IH Hrest).
Qed.

Lemma commaFree_uint d : commaFree (NilEmpty.string_of_uint d) = true.
Proof. induction d; simpl; done. Qed.

Lemma commaFree_numToString n : commaFree (numToString n) = true.
Proof.
  unfold numToString, NilZero.string_of_int, NilZero.string_of_uint.
  destruct (Z.to_int n) as [d|d]; destruct d; simpl;
    try done; apply commaFree_uint.
Qed.

Lemma Number_numToString n : Number (numToString n) = Some n.
Proof.
  unfold Number, numToString.
  rewrite NilZero.isi.
  - simpl. by rewrite DecimalZ.of_to.
  - destruct n; simpl; try done.
    intros [= H]. by apply Unsigned.to_uint_nonnil in H.
  - destruct n; simpl; try done.
    intros [= H]. by apply Unsigned.to_uint_nonnil in H.
Qed.

Lemma parseKey_cellKey i j : parseKey (cellKey i j) = Some (i, j).
Proof.
  unfold parseKey, cellKey.
  rewrite split_comma_append by apply commaFree_numToString.
  rewrite split_comma_commaFree by apply commaFree_numToString.
  by rewrite !Number_numToString.
Qed.

Lemma cellKey_inj i j i' j' : cellKey i j = cellKey i' j' → i = i' ∧ j = j'.
Proof.
  intros H. pose proof (parseKey_cellKey i j) as Hp.
  rewrite H, parseKey_cellKey in Hp. by injection Hp.
Qed.

Lemma cellKey_ne i j i' j' : (i, j) ≠ (i', j') → cellKey i j ≠ cellKey i' j'.
Proof. intros Hne Heq. apply cellKey_inj in Heq as [-> ->]. done. Qed.

#[global] Instance keyOf_inj : Inj (=) (=) keyOf.
Proof.
  intros [i j] [i' j'] H. apply cellKey_inj in H as [H1 H2].
  simpl in *. by subst.
Qed.

(** ** Rounding and flooring *)

Lemma round_above_floor (x : Q) :
  (1 # 2 <= x - inject_Z (Qfloor x))%Q → Math_round x = Math_floor x + 1.
Proof.
  intros H. unfold Math_round, Math_floor.
  pose proof (Qfloor_le x) as Hlo. pose proof (Qlt_floor x) as Hhi.
  rewrite inject_Z_plus in Hhi. change (inject_Z 1) with 1%Q in Hhi.
  apply Z.le_antisymm.
  - assert (Qfloor (x + (1 # 2)) < Qfloor x + 2) as Hlt; [|lia].
    rewrite Zlt_Qlt. eapply Qle_lt_trans; [apply Qfloor_le|].
    rewrite inject_Z_plus. change (inject_Z 2) with 2%Q. lra.
  - rewrite <- (Qfloor_Z (Qfloor x + 1)). apply Qfloor_resp_le.
    rewrite inject_Z_plus. change (inject_Z 1) with 1%Q. lra.
Qed.

Lemma round_at_floor (x : Q) :
  (x - inject_Z (Qfloor x) < 1 # 2)%Q → Math_round x = Math_floor x.
Proof.
  intros H. unfold Math_round, Math_floor.
  pose proof (Qfloor_le x) as Hlo.
  apply Z.le_antisymm.
  - assert (Qfloor (x + (1 # 2)) < Qfloor x + 1) as Hlt; [|lia].
    rewrite Zlt_Qlt. eapply Qle_lt_trans; [apply Qfloor_le|].
    rewrite inject_Z_plus. change (inject_Z 1) with 1%Q. lra.
  - apply Qfloor_resp_le. lra.
Qed.

(** A position whose tile offset is [x] lies in the rectangle of the cell
    with index [Qfloor x] on that axis. *)
Lemma tile_offset_in_rectangle (a origin : Q) :
  let x := ((a - origin) / TILE_DEGREES)%Q in
  (origin + inject_Z (Qfloor x) * TILE_DEGREES <= a)%Q ∧
  (a <= origin + inject_Z (Qfloor x + 1) * TILE_DEGREES)%Q.
Proof.
  intros x.
  pose proof (Qfloor_le x) as Hlo. pose proof (Qlt_floor x) as Hhi.
  assert (x == (a - origin) * 10000)%Q as E
    by (unfold x, TILE_DEGREES; field).
  rewrite inject_Z_plus in *. change (inject_Z 1) with 1%Q in *.
  clearbody x. unfold TILE_DEGREES. split; lra.
Qed.

(** ** Folding with an invariant *)

Lemma foldl_invariant {A B} (f : A → B → A) (P : A → Prop) (l : list B) a :
  P a → (∀ a x, x ∈ l → P a → P (f a x)) → P (foldl f a l).
Proof.
  revert a. induction l as [|x l IH]; intros a Ha Hstep; simpl; [done|].
  apply IH.
  - apply Hstep; [left | done].
  - intros a' y Hy. apply Hstep. by right.
Qed.

Section Facts.
Variable luck : string → Q.

#[local] Abbreviation drawCell := (drawCell luck).
#[local] Abbreviation cellRendered := (cellRendered luck).
#[local] Abbreviation updateVisibleCells := (updateVisibleCells luck).
#[local] Abbreviation visitCell := (visitCell luck).
#[local] Abbreviation resolve := (resolve luck).
#[local] Abbreviation generate := (generate luck).
#[local] Abbreviation handle := (handle luck).
#[local] Abbreviation reachable := (reachable luck).
#[local] Abbreviation invariant := (invariant luck).
#[local] Abbreviation view_resolved := (view_resolved luck).
#[local] Abbreviation renderAll := (renderAll luck).
#[local] Abbreviation evicted := (evicted luck).

(** ** Drawing and removing one cell *)

Lemma drawCell_frame i j st :
  playerMarker (drawCell i j st).2 = playerMarker st ∧
  inventory (drawCell i j st).2 = inventory st ∧
  modifiedCaches (drawCell i j st).2 = modifiedCaches st ∧
  cellRecords (drawCell i j st).2 = cellRecords st ∧
  hasCrafted (drawCell i j st).2 = hasCrafted st.
Proof. unfold drawCell. repeat case_match; done. Qed.

Lemma drawCell_caches_ne i j st k :
  k ≠ cellKey i j → caches (drawCell i j st).2 !! k = caches st !! k.
Proof.
  intros Hk. unfold drawCell.
  repeat case_match; simpl; try done; by rewrite lookup_insert_ne.
Qed.

(** What [drawCell] decides for its own cell, read off the resolver. *)
Lemma drawCell_caches_key i j st :
  caches (drawCell i j st).2 !! cellKey i j =
    match resolve (modifiedCaches st) i j with
    | CacheOf v => Some {| value := v |}
    | NoCache => caches st !! cellKey i j
    end.
Proof.
  unfold drawCell, resolve, generate.
  repeat case_match; simplify_eq; simpl; try done;
    by rewrite lookup_insert_eq.
Qed.

Lemma drawCell_popup i j st :
  (drawCell i j st).1 =
    match modifiedCaches st !! cellKey i j with
    | Some None => DropPopup
    | Some (Some _) => NoPopup
    | None => match generate i j with
              | Some _ => NoPopup
              | None => InfoPopup
              end
    end.
Proof. unfold drawCell, generate. repeat case_match; done. Qed.

Lemma cellRendered_frame i j st :
  playerMarker (cellRendered i j st) = playerMarker st ∧
  inventory (cellRendered i j st) = inventory st ∧
  modifiedCaches (cellRendered i j st) = modifiedCaches st ∧
  hasCrafted (cellRendered i j st) = hasCrafted st.
Proof.
  unfold cellRendered. case_match; [done|].
  destruct (drawCell i j st) as [r st1] eqn:Hd.
  pose proof (drawCell_frame i j st) as Hf. rewrite Hd in Hf. simpl in *.
  destruct Hf as (? & ? & ? & ? & ?). done.
Qed.

Lemma cellRendered_has i j st r :
  cellRecords st !! cellKey i j = Some r → cellRendered i j st = st.
Proof. intros H. unfold cellRendered. by rewrite H. Qed.

Lemma cellRendered_records_key i j st :
  cellRecords st !! cellKey i j = None →
  cellRecords (cellRendered i j st) !! cellKey i j =
    Some {| cr_i := i; cr_j := j; rect := (drawCell i j st).1 |}.
Proof.
  intros H. unfold cellRendered. rewrite H.
  destruct (drawCell i j st) as [r st1]. simpl. by rewrite lookup_insert_eq.
Qed.

Lemma cellRendered_records_ne i j st k :
  k ≠ cellKey i j →
  cellRecords (cellRendered i j st) !! k = cellRecords st !! k.
Proof.
  intros Hk. unfold cellRendered. case_match; [done|].
  destruct (drawCell i j st) as [r st1] eqn:Hd.
  pose proof (drawCell_frame i j st) as Hf. rewrite Hd in Hf. simpl in *.
  rewrite lookup_insert_ne by done.
  destruct Hf as (_ & _ & _ & Hrec & _). by rewrite Hrec.
Qed.

Lemma cellRendered_caches_ne i j st k :
  k ≠ cellKey i j → caches (cellRendered i j st) !! k = caches st !! k.
Proof.
  intros Hk. unfold cellRendered. case_match; [done|].
  destruct (drawCell i j st) as [r st1] eqn:Hd.
  pose proof (drawCell_caches_ne i j st k Hk) as Hc. by rewrite Hd in Hc.
Qed.

Lemma cellRendered_caches_key i j st :
  cellRecords st !! cellKey i j = None →
  caches (cellRendered i j st) !! cellKey i j =
    match resolve (modifiedCaches st) i j with
    | CacheOf v => Some {| value := v |}
    | NoCache => caches st !! cellKey i j
    end.
Proof.
  intros H. unfold cellRendered. rewrite H.
  destruct (drawCell i j st) as [r st1] eqn:Hd.
  pose proof (drawCell_caches_key i j st) as Hc. by rewrite Hd in Hc.
Qed.

Lemma removeCell_dropKey i j st : removeCell i j st = dropKey (cellKey i j) st.
Proof.
  unfold removeCell, dropKey. destruct st as [p inv c m r w]. simpl.
  destruct (r !! cellKey i j) eqn:Hr; simpl;
    destruct (c !! cellKey i j) eqn:Hc; simpl; unfold setCaches, setRecords;
    simpl; f_equal; by rewrite ?delete_id.
Qed.

Lemma dropKey_frame key st :
  playerMarker (dropKey key st) = playerMarker st ∧
  inventory (dropKey key st) = inventory st ∧
  modifiedCaches (dropKey key st) = modifiedCaches st ∧
  hasCrafted (dropKey key st) = hasCrafted st.
Proof. done. Qed.

(** ** Invariant of one draw and one removal *)

Lemma cellRendered_invariant i j st :
  invariant st → invariant (cellRendered i j st).
Proof.
  intros (Hkey & Hdrop & Hmat & Hview).
  destruct (cellRecords st !! cellKey i j) as [r0|] eqn:Hrec.
  { by rewrite (cellRendered_has _ _ _ _ Hrec). }
  assert (caches st !! cellKey i j = None) as Hnone.
  { destruct (caches st !! cellKey i j) eqn:Hc; [|done].
    destruct (Hmat (cellKey i j)) as [r Hr]; [by rewrite Hc|]. congruence. }
  destruct (cellRendered_frame i j st) as (_ & _ & Hmod & _).
  split; [|split; [|split]].
  - intros k r. destruct (decide (k = cellKey i j)) as [->|Hne].
    + rewrite cellRendered_records_key by done. by intros [= <-].
    + rewrite cellRendered_records_ne by done. apply Hkey.
  - intros k r. rewrite Hmod.
    destruct (decide (k = cellKey i j)) as [->|Hne].
    + rewrite cellRendered_records_key by done. intros [= <-]. simpl.
      rewrite drawCell_popup. repeat case_match; done.
    + rewrite cellRendered_records_ne by done. apply Hdrop.
  - intros k. destruct (decide (k = cellKey i j)) as [->|Hne].
    + by rewrite cellRendered_records_key.
    + rewrite cellRendered_records_ne, cellRendered_caches_ne by done.
      apply Hmat.
  - intros k r. rewrite Hmod.
    destruct (decide (k = cellKey i j)) as [->|Hne].
    + rewrite cellRendered_records_key by done. intros [= <-]. simpl.
      rewrite cellRendered_caches_key by done.
      by destruct (resolve (modifiedCaches st) i j).
    + rewrite cellRendered_records_ne, cellRendered_caches_ne by done.
      apply Hview.
Qed.

Lemma dropKey_invariant key st : invariant st → invariant (dropKey key st).
Proof.
  intros (Hkey & Hdrop & Hmat & Hview). split; [|split; [|split]].
  - intros k r. simpl. intros [_ H]%lookup_delete_Some. by apply Hkey.
  - intros k r. simpl. intros [_ H]%lookup_delete_Some. by apply Hdrop.
  - intros k. simpl. destruct (decide (k = key)) as [->|Hne].
    + rewrite lookup_delete_eq. by intros [? ?].
    + rewrite !lookup_delete_ne by done. apply Hmat.
  - intros k r. simpl. intros [Hne H]%lookup_delete_Some.
    rewrite lookup_delete_ne by done. by apply Hview.
Qed.

(** ** The two loops of [updateVisibleCells] *)

Lemma visit_fold cells st W E :
  (foldl visitCell (st, W, E) cells).1 =
    (renderAll cells st, list_to_set (keyOf <$> cells) ∪ W).
Proof.
  revert st W E. induction cells as [|c cs IH]; intros st W E; simpl.
  { f_equal. by rewrite (left_id_L ∅ (∪)). }
  assert (list_to_set (keyOf <$> cs) ∪ ({[cellKey c.1 c.2]} ∪ W) =
          ({[keyOf c]} ∪ list_to_set (keyOf <$> cs)) ∪ W :> gset string) as HW.
  { rewrite (assoc_L (∪)). f_equal. apply (comm_L (∪)). }
  unfold renderAll. simpl.
  destruct (cellRecords st !! cellKey c.1 c.2) as [r|] eqn:Hrec.
  - rewrite IH, (cellRendered_has _ _ _ _ Hrec). unfold renderAll.
    by rewrite HW.
  - rewrite IH. unfold renderAll. by rewrite HW.
Qed.

Lemma renderAll_keeps cells st k :
  is_Some (cellRecords st !! k) →
  cellRecords (renderAll cells st) !! k = cellRecords st !! k ∧
  caches (renderAll cells st) !! k = caches st !! k.
Proof.
  intros Hk. unfold renderAll.
  apply (foldl_invariant _
    (λ s, cellRecords s !! k = cellRecords st !! k ∧
          caches s !! k = caches st !! k)); [done|].
  intros s c _ [Hr Hc].
  destruct (cellRecords s !! cellKey c.1 c.2) as [r|] eqn:Hrec.
  { by rewrite (cellRendered_has _ _ _ _ Hrec). }
  assert (k ≠ cellKey c.1 c.2) as Hne.
  { intros ->. rewrite Hrec in Hr. rewrite <- Hr in Hk. by destruct Hk. }
  by rewrite cellRendered_records_ne, cellRendered_caches_ne.
Qed.

Lemma renderAll_outside cells st k :
  k ∉ keyOf <$> cells →
  cellRecords (renderAll cells st) !! k = cellRecords st !! k ∧
  caches (renderAll cells st) !! k = caches st !! k.
Proof.
  intros Hk. unfold renderAll.
  apply (foldl_invariant _
    (λ s, cellRecords s !! k = cellRecords st !! k ∧
          caches s !! k = caches st !! k)); [done|].
  intros s c Hc [Hr Hca].
  assert (k ≠ cellKey c.1 c.2) as Hne.
  { intros ->. apply Hk. apply list_elem_of_fmap. by exists c. }
  by rewrite cellRendered_records_ne, cellRendered_caches_ne.
Qed.

Lemma renderAll_covers cells st c :
  c ∈ cells → is_Some (cellRecords (renderAll cells st) !! keyOf c).
Proof.
  revert st. induction cells as [|x cs IH]; intros st Hc.
  { by apply elem_of_nil in Hc. }
  apply elem_of_cons in Hc as [->|Hc]; [|by apply IH].
  change (renderAll (x :: cs) st) with (renderAll cs (cellRendered x.1 x.2 st)).
  assert (is_Some (cellRecords (cellRendered x.1 x.2 st) !! keyOf x)) as Hx.
  { unfold keyOf. destruct (cellRecords st !! cellKey x.1 x.2) eqn:Hrec.
    - rewrite (cellRendered_has _ _ _ _ Hrec). by rewrite Hrec.
    - by rewrite cellRendered_records_key. }
  destruct (renderAll_keeps cs _ _ Hx) as [-> _]. done.
Qed.

Lemma renderAll_frame cells st :
  playerMarker (renderAll cells st) = playerMarker st ∧
  inventory (renderAll cells st) = inventory st ∧
  modifiedCaches (renderAll cells st) = modifiedCaches st ∧
  hasCrafted (renderAll cells st) = hasCrafted st.
Proof.
  unfold renderAll.
  apply (foldl_invariant _
    (λ s, playerMarker s = playerMarker st ∧ inventory s = inventory st ∧
          modifiedCaches s = modifiedCaches st ∧
          hasCrafted s = hasCrafted st)); [done|].
  intros s c _ (<- & <- & <- & <-). apply cellRendered_frame.
Qed.

Lemma renderAll_invariant cells st :
  invariant st → invariant (renderAll cells st).
Proof.
  intros H. unfold renderAll. apply foldl_invariant; [done|].
  intros s c _. apply cellRendered_invariant.
Qed.

Lemma dropAll_frame keys st :
  playerMarker (dropAll keys st) = playerMarker st ∧
  inventory (dropAll keys st) = inventory st ∧
  modifiedCaches (dropAll keys st) = modifiedCaches st ∧
  hasCrafted (dropAll keys st) = hasCrafted st.
Proof.
  unfold dropAll.
  apply (foldl_invariant _
    (λ s, playerMarker s = playerMarker st ∧ inventory s = inventory st ∧
          modifiedCaches s = modifiedCaches st ∧
          hasCrafted s = hasCrafted st)); [done|].
  intros s c _ (<- & <- & <- & <-). apply dropKey_frame.
Qed.

Lemma dropAll_invariant keys st : invariant st → invariant (dropAll keys st).
Proof.
  intros H. unfold dropAll. apply foldl_invariant; [done|].
  intros s c _. apply dropKey_invariant.
Qed.

Lemma dropAll_lookup keys st k :
  cellRecords (dropAll keys st) !! k =
    (if decide (k ∈ keys) then None else cellRecords st !! k) ∧
  caches (dropAll keys st) !! k =
    (if decide (k ∈ keys) then None else caches st !! k).
Proof.
  revert st. induction keys as [|x ks IH]; intros st.
  { rewrite !decide_False by apply not_elem_of_nil. done. }
  change (dropAll (x :: ks) st) with (dropAll ks (dropKey x st)).
  destruct (IH (dropKey x st)) as [-> ->]. simpl.
  destruct (decide (k = x)) as [->|Hne].
  - rewrite !lookup_delete_eq.
    destruct (decide (x ∈ x :: ks)) as [_|Hn];
      [by destruct (decide (x ∈ ks))|].
    exfalso. apply Hn. by left.
  - rewrite !lookup_delete_ne by done.
    destruct (decide (k ∈ ks)) as [Hin|Hout].
    + rewrite !decide_True by (by right). done.
    + rewrite !decide_False by (intros [?|?]%elem_of_cons; done). done.
Qed.

Lemma parseKey_keyOf c : parseKey (keyOf c) = Some c.
Proof. destruct c as [i j]. apply parseKey_cellKey. Qed.

Lemma omap_parseKey_cons c (ks : list string) :
  omap parseKey (keyOf c :: ks) = c :: omap parseKey ks.
Proof. cbn [omap list_omap]. by rewrite parseKey_keyOf. Qed.

Lemma evictKey_wanted W st L k : k ∈ W → evictKey W (st, L) k = (st, L).
Proof. intros Hin. unfold evictKey. by rewrite decide_True. Qed.

Lemma evictKey_unwanted W st L c :
  keyOf c ∉ W →
  evictKey W (st, L) (keyOf c) = (dropKey (keyOf c) st, L ++ [c]).
Proof.
  intros Hout. unfold evictKey. rewrite decide_False by done.
  rewrite parseKey_keyOf. destruct c as [i j].
  by rewrite removeCell_dropKey.
Qed.

Lemma evict_fold W keys st L :
  (∀ k, k ∈ keys → ∃ c, k = keyOf c) →
  foldl (evictKey W) (st, L) keys =
    (dropAll (filter (.∉ W) keys) st,
     L ++ omap parseKey (filter (.∉ W) keys)).
Proof.
  revert st L. induction keys as [|k ks IH]; intros st L Hwf.
  { simpl. by rewrite app_nil_r. }
  assert (∀ k', k' ∈ ks → ∃ c, k' = keyOf c) as Hwf'.
  { intros k' Hk'. apply Hwf. by right. }
  destruct (Hwf k) as [c ->]; [left|].
  cbn [foldl].
  destruct (decide (keyOf c ∈ W)) as [Hin|Hout].
  - rewrite evictKey_wanted by done.
    rewrite filter_cons_False by (intros Hn; by apply Hn). by apply IH.
  - rewrite evictKey_unwanted by done.
    rewrite filter_cons_True by done.
    rewrite IH by done. rewrite omap_parseKey_cons.
    by rewrite <- app_assoc.
Qed.

Lemma omap_parseKey_keys (keys : list string) :
  (∀ k, k ∈ keys → ∃ c, k = keyOf c) →
  keyOf <$> omap parseKey keys = keys.
Proof.
  induction keys as [|k ks IH]; intros Hwf; [done|].
  destruct (Hwf k) as [c ->]; [left|].
  rewrite omap_parseKey_cons, fmap_cons.
  f_equal. apply IH. intros k' Hk'. apply Hwf. by right.
Qed.

(** ** The entered list of the first loop *)

Lemma visit_entered_elem cells st W E c :
  c ∈ (foldl visitCell (st, W, E) cells).2 ↔
  c ∈ E ∨ (c ∈ cells ∧ cellRecords st !! keyOf c = None).
Proof.
  revert st W E. induction cells as [|x cs IH]; intros st W E.
  { simpl. split; [by left|]. intros [?|[[]%elem_of_nil _]]. done. }
  cbn [foldl]. unfold visitCell at 2.
  destruct (cellRecords st !! cellKey x.1 x.2) as [r|] eqn:Hrec.
  - rewrite IH. split.
    + intros [?|[Hin Hnone]]; [by left|]. right. split; [by right|done].
    + intros [?|[[->|Hin]%elem_of_cons Hnone]]; [by left| |by right].
      unfold keyOf in Hnone. congruence.
  - rewrite IH. rewrite elem_of_app, list_elem_of_singleton. split.
    + intros [[?| ->]|[Hin Hnone]].
      * by left.
      * right. split; [by left|done].
      * right. split; [by right|].
        destruct (decide (keyOf c = keyOf x)) as [Heq|Hne].
        { unfold keyOf in Heq at 2. rewrite Heq in Hnone.
          by rewrite cellRendered_records_key in Hnone. }
        by rewrite cellRendered_records_ne in Hnone.
    + intros [?|[[->|Hin]%elem_of_cons Hnone]].
      * by left; left.
      * by left; right.
      * destruct (decide (c = x)) as [->|Hne]; [by left; right|].
        right. split; [done|].
        rewrite cellRendered_records_ne; [done|].
        intros Heq. apply Hne. by apply (inj keyOf).
Qed.

Lemma visit_entered_NoDup cells st W E :
  NoDup cells → NoDup E →
  (∀ c, c ∈ E → is_Some (cellRecords st !! keyOf c)) →
  NoDup (foldl visitCell (st, W, E) cells).2.
Proof.
  revert st W E. induction cells as [|x cs IH]; intros st W E Hcs HE Hhas.
  { done. }
  apply NoDup_cons in Hcs as [Hx Hcs].
  cbn [foldl]. unfold visitCell at 2.
  destruct (cellRecords st !! cellKey x.1 x.2) as [r|] eqn:Hrec.
  - by apply IH.
  - apply IH; [done| |].
    + apply NoDup_app. split; [done|]. split; [|apply NoDup_singleton].
      intros c Hc ->%list_elem_of_singleton.
      apply Hhas in Hc. unfold keyOf in Hc. rewrite Hrec in Hc.
      by destruct Hc.
    + intros c [Hc| ->%list_elem_of_singleton]%elem_of_app.
      * destruct (decide (keyOf c = keyOf x)) as [Heq|Hne].
        { rewrite Heq. unfold keyOf.
          by rewrite cellRendered_records_key. }
        rewrite cellRendered_records_ne by done. by apply Hhas.
      * unfold keyOf. by rewrite cellRendered_records_key.
Qed.

(** ** The visible cells *)

Lemma elem_of_wantedCells s n w e i j :
  (i, j) ∈ wantedCells s n w e ↔ (s ≤ i ≤ n ∧ w ≤ j ≤ e).
Proof.
  unfold wantedCells. rewrite list_elem_of_bind. split.
  - intros (i' & Hj & Hi). apply list_elem_of_bind in Hj as (j' & Hij & Hj).
    apply list_elem_of_singleton in Hij. simplify_eq.
    apply elem_of_seqZ in Hi, Hj. lia.
  - intros [Hi Hj]. exists i. split; [|apply elem_of_seqZ; lia].
    apply list_elem_of_bind. exists j.
    split; [by apply list_elem_of_singleton|apply elem_of_seqZ; lia].
Qed.

Lemma NoDup_wantedCells s n w e : NoDup (wantedCells s n w e).
Proof.
  unfold wantedCells. apply NoDup_bind; [| |apply NoDup_seqZ].
  - intros i1 i2 c _ _ H1 H2.
    apply list_elem_of_bind in H1 as (j1 & H1 & _).
    apply list_elem_of_bind in H2 as (j2 & H2 & _).
    apply list_elem_of_singleton in H1, H2. by simplify_eq.
  - intros i _. apply NoDup_bind; [| |apply NoDup_seqZ].
    + intros j1 j2 c _ _ H1 H2.
      apply list_elem_of_singleton in H1, H2. by simplify_eq.
    + intros j _. apply NoDup_singleton.
Qed.

Lemma elem_of_viewCells b i j : (i, j) ∈ viewCells b ↔ inView b i j.
Proof. apply elem_of_wantedCells. Qed.

Lemma elem_of_viewKeys b k :
  k ∈ keyOf <$> viewCells b ↔ ∃ i j, k = cellKey i j ∧ inView b i j.
Proof.
  rewrite list_elem_of_fmap. split.
  - intros ([i j] & -> & Hin). exists i, j. split; [done|].
    by apply elem_of_viewCells.
  - intros (i & j & -> & Hin). exists (i, j). split; [done|].
    by apply elem_of_viewCells.
Qed.

(** ** [updateVisibleCells] as two passes *)

Lemma records_keyed_keyOf st k :
  records_keyed st → is_Some (cellRecords st !! k) → ∃ c, k = keyOf c.
Proof.
  intros Hkey [r Hr]. exists (cr_i r, cr_j r). by apply Hkey in Hr.
Qed.

Lemma updateVisibleCells_passes b st :
  invariant st →
  updateVisibleCells b st =
    (dropAll (evicted b st) (renderAll (viewCells b) st),
     {| enteredCells := (foldl visitCell (st, ∅, []) (viewCells b)).2;
        leftCells := omap parseKey (evicted b st) |}).
Proof.
  intros Hinv. unfold updateVisibleCells.
  fold (southMin b) (northMax b) (westMin b) (eastMax b).
  fold (viewCells b).
  pose proof (visit_fold (viewCells b) st ∅ []) as Hv.
  destruct (foldl visitCell (st, ∅, []) (viewCells b)) as [[st1 W] ent].
  simpl in Hv. apply pair_equal_spec in Hv as [Hst HW]. subst st1 W.
  rewrite (right_id_L ∅ (∪)).
  rewrite evict_fold.
  - done.
  - intros k Hk. apply (records_keyed_keyOf (renderAll (viewCells b) st)).
    + by apply renderAll_invariant.
    + apply list_elem_of_fmap in Hk as ([k' r] & -> & Hk).
      apply elem_of_map_to_list in Hk. by exists r.
Qed.

Lemma elem_of_evicted b st k :
  k ∈ evicted b st ↔
  is_Some (cellRecords st !! k) ∧ k ∉ keyOf <$> viewCells b.
Proof.
  unfold evicted. rewrite list_elem_of_filter, elem_of_list_to_set.
  rewrite (list_elem_of_fmap fst). split.
  - intros [Hout ([k' r] & -> & Hk)]. split; [|done].
    apply elem_of_map_to_list in Hk. simpl in *.
    destruct (renderAll_outside (viewCells b) st k' Hout) as [Hr _].
    rewrite <- Hr. by exists r.
  - intros [[r Hr] Hout]. split; [done|]. exists (k, r). split; [done|].
    apply elem_of_map_to_list.
    destruct (renderAll_outside (viewCells b) st k Hout) as [-> _]. done.
Qed.

Lemma NoDup_evicted b st : NoDup (evicted b st).
Proof. unfold evicted. apply NoDup_filter, NoDup_fst_map_to_list. Qed.

Lemma updateVisibleCells_frame b st :
  playerMarker (updateVisibleCells b st).1 = playerMarker st ∧
  inventory (updateVisibleCells b st).1 = inventory st ∧
  modifiedCaches (updateVisibleCells b st).1 = modifiedCaches st ∧
  hasCrafted (updateVisibleCells b st).1 = hasCrafted st.
Proof.
  unfold updateVisibleCells.
  fold (southMin b) (northMax b) (westMin b) (eastMax b).
  fold (viewCells b).
  pose proof (visit_fold (viewCells b) st ∅ []) as Hv.
  destruct (foldl visitCell (st, ∅, []) (viewCells b)) as [[st1 W] ent].
  simpl in Hv. apply pair_equal_spec in Hv as [Hst _].
  pose proof (renderAll_frame (viewCells b) st) as Hf. rewrite <- Hst in Hf.
  match goal with
  | |- context [foldl ?f ?a ?l] =>
      assert (playerMarker (foldl f a l).1 = playerMarker st ∧
              inventory (foldl f a l).1 = inventory st ∧
              modifiedCaches (foldl f a l).1 = modifiedCaches st ∧
              hasCrafted (foldl f a l).1 = hasCrafted st) as Hgoal;
      [|by destruct (foldl f a l)]
  end.
  apply (foldl_invariant _
    (λ acc, playerMarker acc.1 = playerMarker st ∧
            inventory acc.1 = inventory st ∧
            modifiedCaches acc.1 = modifiedCaches st ∧
            hasCrafted acc.1 = hasCrafted st)); [done|].
  intros [s L] k _ Hs. unfold evictKey.
  case_decide; [done|]. destruct (parseKey k) as [[i j]|]; [|done].
  simpl. by rewrite removeCell_dropKey.
Qed.

Lemma updateVisibleCells_invariant b st :
  invariant st → invariant (updateVisibleCells b st).1.
Proof.
  intros Hinv. rewrite updateVisibleCells_passes by done. simpl.
  by apply dropAll_invariant, renderAll_invariant.
Qed.

(** ** The resolver and the overlay *)

Lemma resolve_insert_eq m i j (x : option Z) :
  resolve (<[cellKey i j := x]> m) i j =
    match x with Some v => CacheOf v | None => NoCache end.
Proof. unfold resolve. rewrite lookup_insert_eq. by destruct x. Qed.

Lemma resolve_insert_ne m key i j (x : option Z) :
  cellKey i j ≠ key → resolve (<[key := x]> m) i j = resolve m i j.
Proof. intros Hne. unfold resolve. by rewrite lookup_insert_ne. Qed.

Lemma resolve_agree m1 m2 i j :
  m1 !! cellKey i j = m2 !! cellKey i j → resolve m1 i j = resolve m2 i j.
Proof. intros H. unfold resolve. by rewrite H. Qed.

(** ** Invariant of the click handlers *)

Lemma setPlayer_invariant p st : invariant st → invariant (setPlayer p st).
Proof. done. Qed.

(** An update of the overlay and of [caches] at one key, as the three
    handlers do it: the cache (if any) shows the new overlay entry. *)
Lemma overlay_update_invariant i j (x : option Z) inv st :
  invariant st →
  (is_Some x → is_Some (cellRecords st !! cellKey i j)) →
  invariant
    (setInventory inv
       (setModified (<[cellKey i j := x]> (modifiedCaches st))
          (setCaches
             (match x with
              | Some v => <[cellKey i j := {| value := v |}]> (caches st)
              | None => delete (cellKey i j) (caches st)
              end) st))).
Proof.
  intros (Hkey & Hdrop & Hmat & Hview) Hrec. split; [|split; [|split]].
  - done.
  - intros k r Hr Hd. simpl in *.
    destruct (decide (k = cellKey i j)) as [->|Hne].
    + by rewrite lookup_insert_eq.
    + rewrite lookup_insert_ne by done. by apply (Hdrop k r).
  - intros k. simpl. destruct (decide (k = cellKey i j)) as [->|Hne].
    + destruct x as [v|]; [intros _; by apply Hrec|].
      rewrite lookup_delete_eq. by intros [? ?].
    + destruct x; [rewrite lookup_insert_ne by done
                  |rewrite lookup_delete_ne by done]; apply Hmat.
  - intros k r Hr. simpl in *.
    destruct (decide (k = cellKey i j)) as [->|Hne].
    + apply Hkey in Hr as Hk. apply cellKey_inj in Hk as [<- <-].
      rewrite resolve_insert_eq. destruct x.
      * by rewrite lookup_insert_eq.
      * by rewrite lookup_delete_eq.
    + rewrite resolve_insert_ne by (by rewrite <- (Hkey k r Hr)).
      rewrite <- (Hview k r Hr).
      destruct x; [by rewrite lookup_insert_ne|by rewrite lookup_delete_ne].
Qed.

Lemma pickupClick_invariant i j cached st :
  invariant st → invariant (pickupClick i j cached st).1.
Proof.
  intros Hinv. unfold pickupClick.
  destruct (_ <=? _); [|done]. destruct (inventory st) eqn:Hi; [done|].
  apply (overlay_update_invariant i j None (Some (value cached)) st Hinv).
  by intros [? ?].
Qed.

Lemma triggerWin_invariant st : invariant st → invariant (triggerWin st).
Proof. unfold triggerWin. by destruct (hasCrafted st). Qed.

Lemma placeClick_invariant i j cached st :
  invariant st → is_Some (cellRecords st !! cellKey i j) →
  invariant (placeClick i j cached st).1.
Proof.
  intros Hinv Hrec. unfold placeClick.
  destruct (_ <? _); [done|]. destruct (inventory st) eqn:Hi; [|done].
  destruct (_ =? _); [|done].
  pose proof (overlay_update_invariant i j (Some (value cached * 2)) None st
                Hinv (λ _, Hrec)) as H.
  simpl. destruct (_ && _); [by apply triggerWin_invariant|done].
Qed.

Lemma dropClick_invariant i j st :
  invariant st → is_Some (cellRecords st !! cellKey i j) →
  invariant (dropClick i j st).1.
Proof.
  intros Hinv Hrec. unfold dropClick.
  destruct (_ <? _); [done|]. destruct (inventory st) as [val|] eqn:Hi; [|done].
  apply (overlay_update_invariant i j (Some val) None st Hinv (λ _, Hrec)).
Qed.

Lemma handle_invariant ev st st' m :
  invariant st → handle ev st = Some (st', m) → invariant st'.
Proof.
  intros Hinv. destruct ev as [k b|b|i j|i j|i j]; simpl.
  - intros [= <- <-]. unfold movePlayerByCells.
    by apply updateVisibleCells_invariant, setPlayer_invariant.
  - intros [= <- <-]. by apply updateVisibleCells_invariant.
  - unfold requestPickup. destruct (caches st !! cellKey i j); [|done].
    simpl. intros [= <- <-]. by apply pickupClick_invariant.
  - unfold requestPlace.
    destruct (caches st !! cellKey i j) as [c|] eqn:Hc; [|done].
    simpl. intros [= <- <-]. apply placeClick_invariant; [done|].
    destruct Hinv as (_ & _ & Hmat & _). apply Hmat. by rewrite Hc.
  - unfold requestDrop.
    destruct (cellRecords st !! cellKey i j) as [[? ? []]|] eqn:Hr; try done.
    simpl. intros [= <- <-]. by apply dropClick_invariant.
Qed.

Lemma initial_invariant : invariant initial.
Proof.
  split; [|split; [|split]]; intros k; simpl; rewrite ?lookup_empty;
    try done; by intros [? ?].
Qed.

(** Every resident cache sits on a cell and shows the value the resolver
    gives for that cell. *)
Lemma invariant_cache_resolved st k c :
  invariant st → caches st !! k = Some c →
  ∃ i j, k = cellKey i j ∧
         resolve (modifiedCaches st) i j = CacheOf (value c).
Proof.
  intros (Hkey & _ & Hmat & Hview) Hc.
  destruct (Hmat k) as [r Hr]; [by rewrite Hc|].
  exists (cr_i r), (cr_j r). split; [by apply Hkey|].
  apply Hview in Hr. rewrite Hc in Hr.
  destruct (resolve (modifiedCaches st) (cr_i r) (cr_j r)); simpl in Hr;
    [done|]. injection Hr as ->. done.
Qed.

Lemma reachable_invariant st : reachable st → invariant st.
Proof.
  induction 1 as [|st ev st' m _ IH Hh]; [apply initial_invariant|].
  by apply (handle_invariant ev st st' m).
Qed.

Lemma reachable_exec evs st : reachable st → reachable (exec luck evs st).
Proof.
  revert st. induction evs as [|ev evs IH]; intros st Hst; [done|].
  simpl. apply IH. unfold exec1.
  destruct (handle ev st) as [[st' m]|] eqn:Hh; [|done].
  by apply (reachable_step luck st ev st' m).
Qed.

Lemma reachable_steps st st' :
  reachable st → steps luck st st' → reachable st'.
Proof.
  intros Hst Hsteps. induction Hsteps as [|st ev st' m st'' Hh _ IH]; [done|].
  apply IH. by apply (reachable_step luck st ev st' m).
Qed.

(** ** The win flag never goes back *)

Lemma win_check_frame (s : State) (c b : bool) :
  c = hasCrafted s →
  let s' := if negb c && b then triggerWin s else s in
  modifiedCaches s' = modifiedCaches s ∧ caches s' = caches s ∧
  inventory s' = inventory s ∧ hasCrafted s' = c || b.
Proof.
  intros ->. unfold triggerWin. destruct (hasCrafted s) eqn:Hc, b; simpl;
    rewrite ?Hc; done.
Qed.

Lemma handle_crafted ev st st' m :
  handle ev st = Some (st', m) → hasCrafted st = true → hasCrafted st' = true.
Proof.
  destruct ev as [k b|b|i j|i j|i j]; simpl.
  - intros [= <- <-]. unfold movePlayerByCells.
    by destruct (updateVisibleCells_frame b
                   (setPlayer
                      {| lat := (lat (playerMarker st) +
                                 inject_Z (keyDelta k).1 * TILE_DEGREES)%Q;
                         lng := (lng (playerMarker st) +
                                 inject_Z (keyDelta k).2 * TILE_DEGREES)%Q |}
                      st)) as (_ & _ & _ & ->).
  - intros [= <- <-].
    by destruct (updateVisibleCells_frame b st) as (_ & _ & _ & ->).
  - unfold requestPickup. destruct (caches st !! cellKey i j); [|done].
    simpl. intros [= <- <-]. unfold pickupClick.
    destruct (_ <=? _); [|done]. by destruct (inventory st).
  - unfold requestPlace. destruct (caches st !! cellKey i j); [|done].
    simpl. intros [= <- <-]. unfold placeClick.
    destruct (_ <? _); [done|]. destruct (inventory st); [|done].
    destruct (_ =? _); [|done]. intros Hc. simpl. rewrite Hc. simpl.
    by rewrite Hc.
  - unfold requestDrop.
    destruct (cellRecords st !! cellKey i j) as [[? ? []]|]; try done.
    simpl. intros [= <- <-]. unfold dropClick.
    destruct (_ <? _); [done|]. by destruct (inventory st).
Qed.

Lemma steps_crafted st st' :
  steps luck st st' → hasCrafted st = true → hasCrafted st' = true.
Proof.
  induction 1 as [|st ev st' m st'' Hh _ IH]; [done|].
  intros Hc. apply IH. by apply (handle_crafted ev st st' m).
Qed.

(** ** What a viewport update leaves behind *)

Lemma updated_records_lookup b st k :
  invariant st →
  cellRecords (updateVisibleCells b st).1 !! k =
    (if decide (k ∈ keyOf <$> viewCells b)
     then cellRecords (renderAll (viewCells b) st) !! k
     else None) ∧
  caches (updateVisibleCells b st).1 !! k =
    (if decide (k ∈ keyOf <$> viewCells b)
     then caches (renderAll (viewCells b) st) !! k
     else if decide (is_Some (cellRecords st !! k)) then None
          else caches st !! k).
Proof.
  intros Hinv. rewrite updateVisibleCells_passes by done. simpl.
  destruct (dropAll_lookup (evicted b st) (renderAll (viewCells b) st) k)
    as [-> ->].
  destruct (decide (k ∈ keyOf <$> viewCells b)) as [Hin|Hout].
  - rewrite !decide_False; [done| |];
      rewrite elem_of_evicted; by intros [_ ?].
  - destruct (renderAll_outside (viewCells b) st k Hout) as [Hr Hc].
    destruct (decide (is_Some (cellRecords st !! k))) as [Hs|Hn].
    + rewrite !decide_True; [done| |]; by rewrite elem_of_evicted.
    + rewrite !decide_False; [|rewrite elem_of_evicted; by intros [? _]..].
      rewrite Hr, Hc. split; [|done].
      destruct (cellRecords st !! k) eqn:E; [|done].
      exfalso. apply Hn. by eexists.
Qed.

Lemma updated_records_dom b st k :
  invariant st →
  is_Some (cellRecords (updateVisibleCells b st).1 !! k) ↔
  k ∈ keyOf <$> viewCells b.
Proof.
  intros Hinv. destruct (updated_records_lookup b st k Hinv) as [-> _].
  case_decide as Hk; [|split; [by intros [? ?]|done]].
  split; [done|]. intros _.
  apply list_elem_of_fmap in Hk as (c & -> & Hc).
  by apply renderAll_covers.
Qed.

Lemma elem_of_enteredCells b st c :
  c ∈ enteredCells (updateVisibleCells b st).2 ↔
  c ∈ viewCells b ∧ cellRecords st !! keyOf c = None.
Proof.
  unfold updateVisibleCells.
  fold (southMin b) (northMax b) (westMin b) (eastMax b).
  fold (viewCells b).
  pose proof (visit_entered_elem (viewCells b) st ∅ [] c) as Hv.
  destruct (foldl visitCell (st, ∅, []) (viewCells b)) as [[st1 W] ent].
  destruct (foldl (evictKey W) _ _) as [st2 lft]. simpl in *.
  rewrite Hv. split; [|by right].
  intros [[]%elem_of_nil|?]. done.
Qed.

Lemma NoDup_enteredCells b st :
  NoDup (enteredCells (updateVisibleCells b st).2).
Proof.
  unfold updateVisibleCells.
  fold (southMin b) (northMax b) (westMin b) (eastMax b).
  fold (viewCells b).
  pose proof (visit_entered_NoDup (viewCells b) st ∅ []
                (NoDup_wantedCells _ _ _ _) (NoDup_nil_2)) as Hv.
  destruct (foldl visitCell (st, ∅, []) (viewCells b)) as [[st1 W] ent].
  destruct (foldl (evictKey W) _ _) as [st2 lft]. simpl in *.
  apply Hv. by intros c []%elem_of_nil.
Qed.

Lemma evicted_keyOf b st k :
  invariant st → k ∈ evicted b st → ∃ c, k = keyOf c.
Proof.
  intros (Hkey & _) [Hs _]%elem_of_evicted.
  by apply (records_keyed_keyOf st).
Qed.

Lemma elem_of_leftCells b st c :
  invariant st →
  c ∈ leftCells (updateVisibleCells b st).2 ↔
  is_Some (cellRecords st !! keyOf c) ∧ c ∉ viewCells b.
Proof.
  intros Hinv. rewrite updateVisibleCells_passes by done. simpl.
  pose proof (omap_parseKey_keys (evicted b st)
                (λ k, evicted_keyOf b st k Hinv)) as Hkeys.
  assert (c ∈ omap parseKey (evicted b st) ↔ keyOf c ∈ evicted b st) as ->.
  { split.
    - intros Hc. rewrite <- Hkeys. apply list_elem_of_fmap. by exists c.
    - intros Hc. rewrite <- Hkeys in Hc.
      apply list_elem_of_fmap in Hc as (c' & Heq & Hc').
      by apply (inj keyOf) in Heq as ->. }
  rewrite elem_of_evicted. rewrite list_elem_of_fmap. split.
  - intros [Hs Hout]. split; [done|]. intros Hc. apply Hout. by exists c.
  - intros [Hs Hout]. split; [done|]. intros (c' & Heq & Hc').
    by apply (inj keyOf) in Heq as ->.
Qed.

Lemma NoDup_leftCells b st :
  invariant st → NoDup (leftCells (updateVisibleCells b st).2).
Proof.
  intros Hinv. rewrite updateVisibleCells_passes by done. simpl.
  apply (NoDup_fmap_1 keyOf).
  rewrite omap_parseKey_keys by (intros k; by apply evicted_keyOf).
  apply NoDup_evicted.
Qed.

(** ** Viewport events and the overlay *)

Lemma viewport_event_frame ev st :
  isViewportEvent ev →
  modifiedCaches (exec1 luck st ev) = modifiedCaches st ∧
  inventory (exec1 luck st ev) = inventory st.
Proof.
  destruct ev as [k b|b|i j|i j|i j]; try done; intros _;
    unfold exec1; simpl.
  - unfold movePlayerByCells.
    match goal with
    | |- context [updateVisibleCells b ?s] =>
        destruct (updateVisibleCells_frame b s) as (_ & -> & -> & _)
    end. done.
  - by destruct (updateVisibleCells_frame b st) as (_ & -> & -> & _).
Qed.

Lemma viewport_events_frame evs st :
  Forall isViewportEvent evs →
  modifiedCaches (exec luck evs st) = modifiedCaches st ∧
  inventory (exec luck evs st) = inventory st.
Proof.
  intros Hall. revert st.
  induction Hall as [|ev evs Hev _ IH]; intros st; [done|].
  simpl. destruct (IH (exec1 luck st ev)) as [-> ->].
  by apply viewport_event_frame.
Qed.

(** ** Which events write the overlay *)

(** An event either leaves the overlay alone or writes one entry, and a
    write comes from a click whose preconditions held. *)
Lemma handle_overlay_cases ev st st' m :
  handle ev st = Some (st', m) →
  modifiedCaches st' = modifiedCaches st ∨
  ∃ i j x,
    modifiedCaches st' = <[cellKey i j := x]> (modifiedCaches st) ∧
    ((ev = ClickPickup i j ∧ x = None ∧ is_Some (caches st !! cellKey i j)) ∨
     (ev = ClickPlace i j ∧
      ∃ c, caches st !! cellKey i j = Some c ∧ x = Some (value c * 2)) ∨
     (ev = ClickDrop i j ∧
      ∃ r v, cellRecords st !! cellKey i j = Some r ∧ rect r = DropPopup ∧
             inventory st = Some v ∧ x = Some v ∧
             cellDistance (getPlayerCell st) (i, j) ≤ PROXIMITY_CELLS ∧
             m = Some (Dropped v) ∧ st' = droppedOn (cellKey i j) v st)).
Proof.
  destruct ev as [k b|b|i j|i j|i j]; simpl.
  - intros [= <- <-]. left. unfold movePlayerByCells.
    match goal with
    | |- context [updateVisibleCells b ?s] =>
        by destruct (updateVisibleCells_frame b s) as (_ & _ & -> & _)
    end.
  - intros [= <- <-]. left.
    by destruct (updateVisibleCells_frame b st) as (_ & _ & -> & _).
  - unfold requestPickup.
    destruct (caches st !! cellKey i j) as [c|] eqn:Hc; [|done]. simpl.
    intros [= <- <-]. unfold pickupClick.
    destruct (_ <=? _); [|by left]. destruct (inventory st); [by left|].
    right. exists i, j, None. split; [done|]. left. by rewrite Hc.
  - unfold requestPlace.
    destruct (caches st !! cellKey i j) as [c|] eqn:Hc; [|done]. simpl.
    intros [= <- <-]. unfold placeClick.
    destruct (_ <? _); [by left|]. destruct (inventory st); [|by left].
    destruct (_ =? _); [|by left].
    right. exists i, j, (Some (value c * 2)). split.
    + cbn [fst].
      match goal with
      | |- context [if negb ?c0 && ?b0 then triggerWin ?s else _] =>
          by destruct (win_check_frame s c0 b0 eq_refl) as (-> & _)
      end.
    + right. left. split; [done|]. by exists c.
  - unfold requestDrop.
    destruct (cellRecords st !! cellKey i j) as [[ri rj []]|] eqn:Hrec;
      try done.
    simpl. intros [= <- <-]. unfold dropClick.
    destruct (Z.ltb_spec PROXIMITY_CELLS
                (cellDistance (getPlayerCell st) (i, j))) as [Hfar|Hnear];
      [by left|].
    destruct (inventory st) as [val|] eqn:Hval; [|by left].
    right. exists i, j, (Some val). split; [done|]. right. right.
    split; [done|]. by eexists _, val.
Qed.

(** A cell that resolves to no cache and has no overlay entry keeps both
    properties through every event. *)
Lemma handle_keeps_bare_cell ev st st' m i j :
  invariant st → handle ev st = Some (st', m) →
  modifiedCaches st !! cellKey i j = None →
  resolve (modifiedCaches st) i j = NoCache →
  modifiedCaches st' !! cellKey i j = None ∧
  resolve (modifiedCaches st') i j = NoCache.
Proof.
  intros Hinv Hh Hnone Hres.
  assert (modifiedCaches st' !! cellKey i j = None) as Hnone'.
  { destruct (handle_overlay_cases ev st st' m Hh)
      as [->|(i0 & j0 & x & -> & Hcase)]; [done|].
    destruct (decide (cellKey i0 j0 = cellKey i j)) as [Heq|Hne];
      [|by rewrite lookup_insert_ne].
    exfalso. apply cellKey_inj in Heq as [-> ->].
    destruct Hcase as [(_ & _ & [c Hc])|[(_ & c & Hc & _)|
                       (_ & r & v & Hrec & Hpop & _)]].
    - destruct (invariant_cache_resolved st _ c Hinv Hc)
        as (i' & j' & Hk & Hr).
      apply cellKey_inj in Hk as [<- <-]. congruence.
    - destruct (invariant_cache_resolved st _ c Hinv Hc)
        as (i' & j' & Hk & Hr).
      apply cellKey_inj in Hk as [<- <-]. congruence.
    - destruct Hinv as (_ & Hdrop & _).
      destruct (Hdrop _ _ Hrec Hpop) as [y Hy]. congruence. }
  split; [done|]. rewrite <- Hres. apply resolve_agree. congruence.
Qed.

End Facts.

(** * The claims of the specification *)

Section Claims.
Variable luck : string → Q.

(** C1. In every reachable state where the player carries a token of value
    [v], the cell [(i, j)] is materialized and resolves to a cache of the
    same value [v], and the Chebyshev distance from the player's cell to
    [(i, j)] is within [PROXIMITY_CELLS], a Place request succeeds: the
    cell's overlay entry becomes the token [v * 2] (and nothing else in the
    overlay changes), the resident cache shows [v * 2], the inventory is
    emptied, and the win flag turns from false to true exactly when
    [v * 2 >= WIN_THRESHOLD] and it was not already set.  Once the flag is
    true it is true in every later state. *)
Theorem place_equal_doubles_and_wins st i j v :
  reachable luck st →
  inventory st = Some v →
  is_Some (cellRecords st !! cellKey i j) →
  resolve luck (modifiedCaches st) i j = CacheOf v →
  cellDistance (getPlayerCell st) (i, j) ≤ PROXIMITY_CELLS →
  ∃ st',
    requestPlace i j st = Some (st', Crafted (v * 2)) ∧
    modifiedCaches st' = <[cellKey i j := Some (v * 2)]> (modifiedCaches st) ∧
    resolve luck (modifiedCaches st') i j = CacheOf (v * 2) ∧
    caches st' !! cellKey i j = Some {| value := v * 2 |} ∧
    inventory st' = None ∧
    hasCrafted st' = hasCrafted st || (WIN_THRESHOLD <=? v * 2) ∧
    ((hasCrafted st = false ∧ hasCrafted st' = true) ↔
     (WIN_THRESHOLD ≤ v * 2 ∧ hasCrafted st = false)) ∧
    (∀ s s', steps luck s s' → hasCrafted s = true → hasCrafted s' = true).
Proof.
  intros Hreach Hinv [r Hrec] Hres Hdist.
  destruct (reachable_invariant luck st Hreach) as (Hkey & _ & _ & Hview).
  pose proof (Hview _ _ Hrec) as Hshown.
  apply Hkey in Hrec as Hk. apply cellKey_inj in Hk as [Hi Hj].
  rewrite <- Hi, <- Hj, Hres in Hshown. simpl in Hshown. clear Hi Hj.
  unfold requestPlace. rewrite Hshown. simpl.
  unfold placeClick. simpl.
  rewrite (proj2 (Z.ltb_ge _ _) Hdist), Hinv, Z.eqb_refl.
  eexists. split; [reflexivity|].
  match goal with
  | |- context [if negb ?c && ?b then triggerWin ?s else _] =>
      destruct (win_check_frame s c b eq_refl) as (-> & -> & -> & ->)
  end.
  simpl.
  rewrite resolve_insert_eq, lookup_insert_eq.
  repeat (split; [done|]).
  split; [|by apply steps_crafted].
  destruct (hasCrafted st); simpl.
  - split; [by intros [? _]|by intros [_ ?]].
  - destruct (Z.leb_spec WIN_THRESHOLD (v * 2)) as [Hle|Hlt].
    + done.
    + split; [by intros [_ ?]|]. intros [? _]. lia.
Qed.

(** C2. Evicting the materialized record of a cell, whether by [removeCell]
    alone or inside a viewport update, leaves the mutation overlay as it
    was.  After a successful pick-up at a cell the overlay entry of the cell
    is the explicit-empty mark; removing the cell and materializing it again
    draws it from that entry (drop popup, no cache), and after any sequence
    of player moves and viewport updates the cell still resolves to no cache
    and shows none: the baseline is not consulted again. *)
Theorem overlay_survives_eviction st i j st1 :
  reachable luck st →
  requestPickup i j st = Some (st1, PickedUp) →
  (∀ i' j' s, modifiedCaches (removeCell i' j' s) = modifiedCaches s) ∧
  (∀ b s, modifiedCaches (updateVisibleCells luck b s).1 = modifiedCaches s) ∧
  modifiedCaches st1 !! cellKey i j = Some None ∧
  (let st2 := cellRendered luck i j (removeCell i j st1) in
   cellRecords st2 !! cellKey i j =
     Some {| cr_i := i; cr_j := j; rect := DropPopup |} ∧
   caches st2 !! cellKey i j = None ∧
   modifiedCaches st2 = modifiedCaches st1) ∧
  (∀ evs, Forall isViewportEvent evs →
     let st2 := exec luck evs st1 in
     modifiedCaches st2 = modifiedCaches st1 ∧
     resolve luck (modifiedCaches st2) i j = NoCache ∧
     caches st2 !! cellKey i j = None).
Proof.
  intros Hreach Hpick.
  assert (reachable luck st1) as Hreach1.
  { apply (reachable_step luck st (ClickPickup i j) st1 (Some PickedUp));
      [done|]. simpl. by rewrite Hpick. }
  assert (modifiedCaches st1 !! cellKey i j = Some None) as Hov.
  { unfold requestPickup in Hpick.
    destruct (caches st !! cellKey i j) as [c|]; [|done]. simpl in Hpick.
    unfold pickupClick in Hpick. destruct (_ <=? _); [|done].
    destruct (inventory st); [done|]. injection Hpick as <-.
    simpl. by rewrite lookup_insert_eq. }
  split; [intros i' j' s; by rewrite removeCell_dropKey|].
  split; [intros b s; by destruct (updateVisibleCells_frame luck b s)
                           as (_ & _ & -> & _)|].
  split; [done|]. split.
  - cbv zeta. rewrite removeCell_dropKey.
    assert (cellRecords (dropKey (cellKey i j) st1) !! cellKey i j = None)
      as Hnone by (simpl; apply lookup_delete_eq).
    rewrite cellRendered_records_key, cellRendered_caches_key by done.
    rewrite drawCell_popup. simpl. rewrite Hov.
    unfold resolve. rewrite Hov. split; [done|].
    split; [apply lookup_delete_eq|].
    by destruct (cellRendered_frame luck i j (dropKey (cellKey i j) st1))
      as (_ & _ & -> & _).
  - intros evs Hall st2.
    destruct (viewport_events_frame luck evs st1 Hall) as [Hmod _].
    fold st2 in Hmod. split; [done|].
    assert (resolve luck (modifiedCaches st2) i j = NoCache) as Hres.
    { unfold resolve. by rewrite Hmod, Hov. }
    split; [done|].
    destruct (caches st2 !! cellKey i j) as [c|] eqn:Hc; [|done].
    assert (invariant luck st2) as Hinv2
      by (apply reachable_invariant; by apply reachable_exec).
    destruct (invariant_cache_resolved luck st2 _ c Hinv2 Hc)
      as (i' & j' & Hk & Hr).
    apply cellKey_inj in Hk as [<- <-]. congruence.
Qed.

(** C3. Materializing a cell shows exactly what the resolver of the
    specification gives for it: when the overlay has an entry for the cell
    that entry decides (the explicit-empty mark gives no cache and the drop
    popup, a token [v] gives a cache of value [v]) and the outcome is the
    same under any other luck function, so the generator is not consulted;
    when the overlay has no entry the generator's output decides.  In every
    reachable state a resident cache shows the resolved value of its cell. *)
Theorem materialize_follows_resolver st i j :
  reachable luck st →
  cellRecords st !! cellKey i j = None →
  caches (cellRendered luck i j st) !! cellKey i j =
    shown (resolve luck (modifiedCaches st) i j) ∧
  resolve luck (modifiedCaches st) i j =
    match modifiedCaches st !! cellKey i j with
    | Some None => NoCache
    | Some (Some v) => CacheOf v
    | None => match generate luck i j with
              | Some v => CacheOf v
              | None => NoCache
              end
    end ∧
  (is_Some (modifiedCaches st !! cellKey i j) →
   ∀ luck', drawCell luck' i j st = drawCell luck i j st) ∧
  (∀ k c, caches st !! k = Some c →
     ∃ i' j', k = cellKey i' j' ∧
              resolve luck (modifiedCaches st) i' j' = CacheOf (value c)).
Proof.
  intros Hreach Hrec.
  pose proof (reachable_invariant luck st Hreach) as Hinv.
  split; [|split; [done|split]].
  - rewrite cellRendered_caches_key by done.
    destruct (resolve luck (modifiedCaches st) i j) eqn:Hr; [|done].
    destruct Hinv as (_ & _ & Hmat & _).
    destruct (caches st !! cellKey i j) eqn:Hc; [|done].
    destruct (Hmat (cellKey i j)) as [r Hr']; [by rewrite Hc|]. congruence.
  - intros [x Hx] luck'. unfold drawCell. by rewrite Hx.
  - intros k c. by apply invariant_cache_resolved.
Qed.

(** C4 (as amended).  The program has a Drop action besides Place: a cell
    that was materialized while its overlay entry was the explicit-empty
    mark carries a "Drop token here" button.  For a cell that resolves to no
    cache in a reachable state:
    - neither Pick up nor Place is offered on it;
    - where the Drop button is there, the player carries a token [v] and the
      cell is within the proximity radius, the Drop click succeeds: the
      overlay entry, which was the explicit-empty mark, becomes the token
      [v], a cache of value [v] is created on the cell, the inventory is
      emptied, and nothing else in the state changes;
    - an event after which the cell resolves to a cache is such a Drop on
      that very cell, and the state after it is the one just described;
    - a cell without overlay entry (and so without baseline cache) never
      gains a cache or an overlay entry, whatever events follow. *)
Theorem only_drop_creates_cache st i j :
  reachable luck st →
  resolve luck (modifiedCaches st) i j = NoCache →
  requestPlace i j st = None ∧
  requestPickup i j st = None ∧
  (∀ r v,
     cellRecords st !! cellKey i j = Some r → rect r = DropPopup →
     inventory st = Some v →
     cellDistance (getPlayerCell st) (i, j) ≤ PROXIMITY_CELLS →
     let st' := droppedOn (cellKey i j) v st in
     modifiedCaches st !! cellKey i j = Some None ∧
     handle luck (ClickDrop i j) st = Some (st', Some (Dropped v)) ∧
     modifiedCaches st' !! cellKey i j = Some (Some v) ∧
     resolve luck (modifiedCaches st') i j = CacheOf v ∧
     caches st' !! cellKey i j = Some {| value := v |} ∧
     inventory st' = None ∧
     cellRecords st' = cellRecords st ∧
     playerMarker st' = playerMarker st ∧
     hasCrafted st' = hasCrafted st ∧
     (∀ k, k ≠ cellKey i j →
           caches st' !! k = caches st !! k ∧
           modifiedCaches st' !! k = modifiedCaches st !! k)) ∧
  (∀ ev st' m v,
     handle luck ev st = Some (st', m) →
     resolve luck (modifiedCaches st') i j = CacheOf v →
     ev = ClickDrop i j ∧ m = Some (Dropped v) ∧
     inventory st = Some v ∧
     modifiedCaches st !! cellKey i j = Some None ∧
     cellDistance (getPlayerCell st) (i, j) ≤ PROXIMITY_CELLS ∧
     (∃ r, cellRecords st !! cellKey i j = Some r ∧ rect r = DropPopup) ∧
     st' = droppedOn (cellKey i j) v st ∧
     inventory st' = None ∧
     caches st' !! cellKey i j = Some {| value := v |}) ∧
  (modifiedCaches st !! cellKey i j = None →
   ∀ st', steps luck st st' →
     resolve luck (modifiedCaches st') i j = NoCache ∧
     modifiedCaches st' !! cellKey i j = None).
Proof.
  intros Hreach Hbefore.
  pose proof (reachable_invariant luck st Hreach) as Hinv.
  assert (caches st !! cellKey i j = None) as Hnocache.
  { destruct (caches st !! cellKey i j) as [c|] eqn:Hc; [|done].
    destruct (invariant_cache_resolved luck st _ c Hinv Hc)
      as (i' & j' & Hk & Hr).
    apply cellKey_inj in Hk as [<- <-]. congruence. }
  assert (∀ r, cellRecords st !! cellKey i j = Some r → rect r = DropPopup →
               modifiedCaches st !! cellKey i j = Some None) as Hmark.
  { intros r Hrec Hpop. destruct Hinv as (_ & Hdrop & _).
    destruct (Hdrop _ _ Hrec Hpop) as [x Hx].
    unfold resolve in Hbefore. rewrite Hx in Hbefore. by destruct x. }
  split; [unfold requestPlace; by rewrite Hnocache|].
  split; [unfold requestPickup; by rewrite Hnocache|].
  split; [|split].
  - intros r v Hrec Hpop Hcarry Hdist st'.
    split; [by apply (Hmark r)|]. split.
    + simpl. unfold requestDrop. rewrite Hrec.
      destruct r as [ri rj p]. simpl in Hpop. subst p. simpl.
      unfold dropClick.
      by rewrite (proj2 (Z.ltb_ge _ _) Hdist), Hcarry.
    + unfold st', droppedOn. simpl.
      rewrite resolve_insert_eq, !lookup_insert_eq.
      repeat (split; [done|]).
      intros k Hk. by rewrite !lookup_insert_ne.
  - intros ev st' m v Hh Hafter.
    destruct (handle_overlay_cases luck ev st st' m Hh)
      as [Hsame|(i0 & j0 & x & Hmod & Hcase)].
    { rewrite Hsame in Hafter. congruence. }
    rewrite Hmod in Hafter.
    destruct (decide (cellKey i j = cellKey i0 j0)) as [Heq|Hne];
      [|rewrite resolve_insert_ne in Hafter by done; congruence].
    apply cellKey_inj in Heq as [<- <-].
    rewrite resolve_insert_eq in Hafter.
    destruct Hcase as [(_ & -> & _)|[(_ & c & Hc & _)|
      (-> & r & w & Hrec & Hpop & Hcarry & -> & Hdist & -> & ->)]].
    + done.
    + congruence.
    + injection Hafter as ->.
      split; [done|]. split; [done|]. split; [done|].
      split; [by apply (Hmark r)|]. split; [done|].
      split; [by exists r|]. split; [done|]. split; [done|].
      unfold droppedOn. simpl. by rewrite lookup_insert_eq.
  - intros Hnone st' Hsteps.
    revert Hreach Hinv Hbefore Hnone Hnocache Hmark.
    induction Hsteps as [s|s ev s' m s'' Hh _ IH];
      intros Hreach Hinv Hbefore Hnone _ _; [done|].
    destruct (handle_keeps_bare_cell luck ev s s' m i j Hinv Hh Hnone Hbefore)
      as [Hnone' Hres'].
    assert (reachable luck s') as Hreach'
      by by apply (reachable_step luck s ev s' m).
    pose proof (reachable_invariant luck s' Hreach') as Hinv'.
    apply IH; try done.
    + destruct (caches s' !! cellKey i j) as [c|] eqn:Hc; [|done].
      destruct (invariant_cache_resolved luck s' _ c Hinv' Hc)
        as (i' & j' & Hk & Hr).
      apply cellKey_inj in Hk as [<- <-]. congruence.
    + intros r Hrec Hpop. destruct Hinv' as (_ & Hdrop & _).
      destruct (Hdrop _ _ Hrec Hpop) as [x Hx]. congruence.
Qed.

(** C5 (as amended).  While the player carries a token, a Pickup request on
    a cell with a cache is rejected and the whole state (inventory, overlay,
    caches) stays as it was; the rejection is "already carrying" when the
    cell is within the proximity radius and "too far", with the measured
    distance, when it is not, because the distance is checked first.  A
    successful pick-up therefore only happens with an empty inventory. *)
Theorem pickup_rejected_while_carrying st i j v cached :
  inventory st = Some v →
  caches st !! cellKey i j = Some cached →
  let dist := cellDistance (getPlayerCell st) (i, j) in
  requestPickup i j st =
    Some (st, if dist <=? PROXIMITY_CELLS then AlreadyCarrying
              else TooFar dist) ∧
  (∀ s i' j' s', requestPickup i' j' s = Some (s', PickedUp) →
     inventory s = None).
Proof.
  intros Hinv Hc dist. split.
  - unfold requestPickup. rewrite Hc. simpl. unfold pickupClick.
    fold dist. rewrite Hinv. by destruct (dist <=? PROXIMITY_CELLS).
  - intros s i' j' s'. unfold requestPickup.
    destruct (caches s !! cellKey i' j') as [c|]; [|done]. simpl.
    unfold pickupClick. destruct (_ <=? _); [|done].
    by destruct (inventory s).
Qed.

(** C6. The distance used for authorization is the Chebyshev distance
    [max(|playerI - cellI|, |playerJ - cellJ|)] and the bound is inclusive:
    at distance exactly [PROXIMITY_CELLS] no request is rejected as too far
    (a Pickup with empty inventory succeeds, a Place of an equal value
    succeeds, a Drop of a carried token succeeds), and at distance
    [PROXIMITY_CELLS + 1] every request is rejected as too far, reporting
    that distance, with the state unchanged. *)
Theorem proximity_boundary_inclusive st i j cached :
  caches st !! cellKey i j = Some cached →
  let dist := cellDistance (getPlayerCell st) (i, j) in
  dist = Z.max (Z.abs ((getPlayerCell st).1 - i))
               (Z.abs ((getPlayerCell st).2 - j)) ∧
  (dist = PROXIMITY_CELLS →
     (inventory st = None →
        ∃ st', requestPickup i j st = Some (st', PickedUp) ∧
               inventory st' = Some (value cached)) ∧
     (inventory st = Some (value cached) →
        ∃ st', requestPlace i j st = Some (st', Crafted (value cached * 2)) ∧
               inventory st' = None) ∧
     (∀ v, inventory st = Some v →
        ∃ st', dropClick i j st = (st', Dropped v)) ∧
     (∀ st' m d, requestPickup i j st = Some (st', m) → m ≠ TooFar d) ∧
     (∀ st' m d, requestPlace i j st = Some (st', m) → m ≠ TooFar d) ∧
     (∀ d, (dropClick i j st).2 ≠ TooFar d)) ∧
  (dist = PROXIMITY_CELLS + 1 →
     requestPickup i j st = Some (st, TooFar (PROXIMITY_CELLS + 1)) ∧
     requestPlace i j st = Some (st, TooFar (PROXIMITY_CELLS + 1)) ∧
     dropClick i j st = (st, TooFar (PROXIMITY_CELLS + 1))).
Proof.
  intros Hc dist. split; [done|].
  unfold requestPickup, requestPlace. rewrite Hc. simpl.
  unfold pickupClick, placeClick, dropClick. fold dist.
  split; intros ->.
  - rewrite Z.leb_refl, Z.ltb_irrefl. repeat split.
    + intros ->. by eexists.
    + intros ->. rewrite Z.eqb_refl.
      match goal with
      | |- context [if negb ?c0 && ?b0 then triggerWin ?s else _] =>
          destruct (win_check_frame s c0 b0 eq_refl) as (_ & _ & Hi & _)
      end.
      eexists. split; [done|]. by rewrite Hi.
    + intros v ->. by eexists.
    + intros st' m d. destruct (inventory st); by intros [= <- <-].
    + intros st' m d. destruct (inventory st) as [v|]; [|by intros [= <- <-]].
      destruct (v =? value cached); by intros [= <- <-].
    + intros d. by destruct (inventory st).
  - assert ((PROXIMITY_CELLS + 1 <=? PROXIMITY_CELLS) = false) as ->
      by (apply Z.leb_gt; lia).
    assert ((PROXIMITY_CELLS <? PROXIMITY_CELLS + 1) = true) as ->
      by (apply Z.ltb_lt; lia).
    done.
Qed.

(** C7 (as amended).  In a reachable state where the player carries [v] and
    the materialized cell resolves to a cache of another value, a Place
    request is rejected and the whole state (inventory, caches, overlay)
    stays as it was; the rejection is "value mismatch" when the cell is
    within the proximity radius and "too far", with the measured distance,
    when it is not, because the distance is checked first. *)
Theorem place_mismatch_rejected st i j v v' :
  reachable luck st →
  inventory st = Some v →
  is_Some (cellRecords st !! cellKey i j) →
  resolve luck (modifiedCaches st) i j = CacheOf v' →
  v' ≠ v →
  let dist := cellDistance (getPlayerCell st) (i, j) in
  caches st !! cellKey i j = Some {| value := v' |} ∧
  requestPlace i j st =
    Some (st, if PROXIMITY_CELLS <? dist then TooFar dist else ValueMismatch).
Proof.
  intros Hreach Hinv [r Hrec] Hres Hne dist.
  destruct (reachable_invariant luck st Hreach) as (Hkey & _ & _ & Hview).
  pose proof (Hview _ _ Hrec) as Hshown.
  apply Hkey in Hrec as Hk. apply cellKey_inj in Hk as [Hi Hj].
  rewrite <- Hi, <- Hj, Hres in Hshown. simpl in Hshown.
  split; [done|].
  unfold requestPlace. rewrite Hshown. simpl. unfold placeClick. fold dist.
  destruct (PROXIMITY_CELLS <? dist); [done|]. rewrite Hinv. simpl.
  by rewrite (proj2 (Z.eqb_neq v v')).
Qed.

(** C8. After a viewport update in a reachable state, the cell records are
    exactly the cells whose indices lie within the floored viewport bounds:
    a key has a record if and only if it is the key of such a cell, and the
    record filed under the key of [(i, j)] names [(i, j)], so there is one
    record per cell.  The cells handed to [drawCell] are exactly those
    visible now and not before, the cells handed to [removeCell] exactly
    those visible before and not now, neither list repeats a cell, and a
    cell visible before and after keeps its record and its cache entry and
    is in neither list. *)
Theorem viewport_update_exact st b :
  reachable luck st →
  let st' := (updateVisibleCells luck b st).1 in
  let delta := (updateVisibleCells luck b st).2 in
  (∀ k, is_Some (cellRecords st' !! k) ↔
        ∃ i j, k = cellKey i j ∧ inView b i j) ∧
  (∀ i j r, cellRecords st' !! cellKey i j = Some r →
            cr_i r = i ∧ cr_j r = j) ∧
  (∀ i j, (i, j) ∈ enteredCells delta ↔
          is_Some (cellRecords st' !! cellKey i j) ∧
          cellRecords st !! cellKey i j = None) ∧
  (∀ i j, (i, j) ∈ leftCells delta ↔
          is_Some (cellRecords st !! cellKey i j) ∧
          cellRecords st' !! cellKey i j = None) ∧
  NoDup (enteredCells delta) ∧ NoDup (leftCells delta) ∧
  (∀ i j, is_Some (cellRecords st !! cellKey i j) →
          is_Some (cellRecords st' !! cellKey i j) →
          cellRecords st' !! cellKey i j = cellRecords st !! cellKey i j ∧
          caches st' !! cellKey i j = caches st !! cellKey i j ∧
          ((i, j) ∉ enteredCells delta) ∧ ((i, j) ∉ leftCells delta)).
Proof.
  intros Hreach st' delta.
  pose proof (reachable_invariant luck st Hreach) as Hinv.
  pose proof (updateVisibleCells_invariant luck b st Hinv) as Hinv'.
  fold st' in Hinv'.
  assert (∀ i j, is_Some (cellRecords st' !! cellKey i j) ↔
                 (i, j) ∈ viewCells b) as Hdom.
  { intros i j. unfold st'. rewrite updated_records_dom by done.
    rewrite list_elem_of_fmap. split.
    - intros (c & Heq & Hc). by apply (inj keyOf (i, j)) in Heq as <-.
    - intros Hc. by exists (i, j). }
  split; [|split; [|split; [|split; [|split; [|split]]]]].
  - intros k. unfold st'. rewrite updated_records_dom by done.
    apply elem_of_viewKeys.
  - intros i j r Hr. destruct Hinv' as (Hkey & _).
    apply Hkey in Hr. apply cellKey_inj in Hr as [-> ->]. done.
  - intros i j. unfold delta. rewrite elem_of_enteredCells.
    by rewrite Hdom.
  - intros i j. unfold delta. rewrite elem_of_leftCells by done.
    rewrite eq_None_not_Some, Hdom. done.
  - apply NoDup_enteredCells.
  - by apply NoDup_leftCells.
  - intros i j Hold Hnew.
    destruct (updated_records_lookup luck b st (cellKey i j) Hinv)
      as [Hr Hc].
    fold st' in Hr, Hc.
    assert (cellKey i j ∈ keyOf <$> viewCells b) as Hin.
    { apply list_elem_of_fmap. exists (i, j). split; [done|].
      by apply Hdom. }
    rewrite decide_True in Hr by done. rewrite decide_True in Hc by done.
    destruct (renderAll_keeps luck (viewCells b) st _ Hold) as [Hr' Hc'].
    rewrite Hr, Hc, Hr', Hc'. split; [done|]. split; [done|]. split.
    + unfold delta. rewrite elem_of_enteredCells. intros [_ Hnone].
      unfold keyOf in Hnone. simpl in Hnone. rewrite Hnone in Hold.
      by destruct Hold.
    + unfold delta. rewrite elem_of_leftCells by done. intros [_ Hout].
      apply Hout. by apply Hdom.
Qed.

(** C9. The baseline generator is deterministic: the presence decision and
    the value of a cell are functions of the luck function and of [(i, j)]
    alone, so drawing an unmodified cell gives the same cache in any two
    states, whatever was materialized before; evicting and materializing a
    cell again, any number of times, shows the same cache and the same
    record; and the resolver gives the same answer in any two states whose
    overlays agree on the cell. *)
Theorem generator_and_resolver_repeatable st1 st2 i j :
  modifiedCaches st1 !! cellKey i j = modifiedCaches st2 !! cellKey i j →
  resolve luck (modifiedCaches st1) i j = resolve luck (modifiedCaches st2) i j ∧
  (drawCell luck i j st1).1 = (drawCell luck i j st2).1 ∧
  (modifiedCaches st1 !! cellKey i j = None →
   ∀ v, generate luck i j = Some v →
     caches (drawCell luck i j st1).2 !! cellKey i j = Some {| value := v |} ∧
     caches (drawCell luck i j st2).2 !! cellKey i j = Some {| value := v |}) ∧
  (let again s := cellRendered luck i j (removeCell i j s) in
   caches (again (again st1)) !! cellKey i j =
     caches (again st1) !! cellKey i j ∧
   cellRecords (again (again st1)) !! cellKey i j =
     cellRecords (again st1) !! cellKey i j ∧
   caches (again st1) !! cellKey i j =
     shown (resolve luck (modifiedCaches st1) i j)).
Proof.
  intros Hsame. split; [by apply resolve_agree|].
  split; [by rewrite !drawCell_popup, Hsame|]. split.
  - intros Hnone v Hgen. rewrite !drawCell_caches_key.
    unfold resolve. rewrite <- Hsame, Hnone, Hgen. done.
  - cbv zeta.
    assert (∀ s, cellRecords (removeCell i j s) !! cellKey i j = None ∧
                 caches (removeCell i j s) !! cellKey i j = None ∧
                 modifiedCaches (removeCell i j s) = modifiedCaches s) as Hrem.
    { intros s. rewrite removeCell_dropKey. simpl.
      by rewrite !lookup_delete_eq. }
    assert (∀ s, caches (cellRendered luck i j (removeCell i j s))
                   !! cellKey i j = shown (resolve luck (modifiedCaches s) i j) ∧
                 cellRecords (cellRendered luck i j (removeCell i j s))
                   !! cellKey i j =
                   Some {| cr_i := i; cr_j := j;
                           rect := (drawCell luck i j (removeCell i j s)).1 |} ∧
                 modifiedCaches (cellRendered luck i j (removeCell i j s)) =
                   modifiedCaches s) as Hagain.
    { intros s. destruct (Hrem s) as (Hr & Hc & Hm).
      rewrite cellRendered_caches_key, cellRendered_records_key by done.
      destruct (cellRendered_frame luck i j (removeCell i j s))
        as (_ & _ & -> & _).
      rewrite Hm, Hc. split; [|done].
      by destruct (resolve luck (modifiedCaches s) i j). }
    destruct (Hagain st1) as (Hc1 & Hr1 & Hm1).
    destruct (Hagain (cellRendered luck i j (removeCell i j st1)))
      as (Hc2 & Hr2 & Hm2).
    rewrite Hc2, Hr2, Hc1, Hr1, Hm1. split; [done|]. split; [|done].
    rewrite !drawCell_popup.
    destruct (Hrem st1) as (_ & _ & ->).
    destruct (Hrem (cellRendered luck i j (removeCell i j st1)))
      as (_ & _ & ->).
    by rewrite Hm1.
Qed.

End Claims.

(** C10. The player's cell and the grid of rectangles are quantized
    differently: [latLngToCell] rounds the tile offset of a position to the
    nearest integer, while the rectangle of cell [(i, j)] spans offsets
    [i .. i+1] and [updateVisibleCells] floors the offsets of the bounds.
    For a position whose fractional offset is at least half a tile on both
    axes, the position lies in the rectangle of the cell with the floored
    indices, the floor quantization of [updateVisibleCells] gives those
    indices, and [latLngToCell] gives indices one greater on each axis; the
    distance to any target is therefore measured from that other cell, which
    is at distance 1 from the cell containing the position. *)
Theorem player_cell_rounds_past_rectangle (position : LatLng) :
  let x := ((lat position - lat CLASSROOM_LATLNG) / TILE_DEGREES)%Q in
  let y := ((lng position - lng CLASSROOM_LATLNG) / TILE_DEGREES)%Q in
  (1 # 2 <= x - inject_Z (Qfloor x))%Q →
  (1 # 2 <= y - inject_Z (Qfloor y))%Q →
  let i := Math_floor x in
  let j := Math_floor y in
  latLngToCell position = (i + 1, j + 1) ∧
  ((lat (cellBounds i j).1 <= lat position)%Q ∧
   (lat position <= lat (cellBounds i j).2)%Q ∧
   (lng (cellBounds i j).1 <= lng position)%Q ∧
   (lng position <= lng (cellBounds i j).2)%Q) ∧
  (∀ b, getSouth b = lat position → getWest b = lng position →
        southMin b = i ∧ westMin b = j) ∧
  (∀ target, cellDistance (latLngToCell position) target =
             cellDistance (i + 1, j + 1) target) ∧
  cellDistance (latLngToCell position) (i, j) = 1.
Proof.
  intros x y Hx Hy i j.
  assert (latLngToCell position = (i + 1, j + 1)) as Hcell.
  { unfold latLngToCell. fold x y.
    by rewrite (round_above_floor x Hx), (round_above_floor y Hy). }
  split; [done|]. split.
  - destruct (tile_offset_in_rectangle (lat position) (lat CLASSROOM_LATLNG))
      as [H1 H2].
    destruct (tile_offset_in_rectangle (lng position) (lng CLASSROOM_LATLNG))
      as [H3 H4].
    done.
  - split; [|split].
    + intros b Hs Hw. unfold southMin, westMin. by rewrite Hs, Hw.
    + intros target. by rewrite Hcell.
    + rewrite Hcell. unfold cellDistance. simpl. lia.
Qed.

(** * The theorems at work on the concrete world *)

Lemma demoStart_reachable : reachable demoLuck demoStart.
Proof. apply reachable_exec, reachable_initial. Qed.

Lemma demoCarrying_reachable : reachable demoLuck demoCarrying.
Proof. apply reachable_exec, demoStart_reachable. Qed.

Lemma demoReturned_reachable : reachable demoLuck demoReturned.
Proof. apply reachable_exec, demoCarrying_reachable. Qed.

(** Carrying 1 next to the cache of value 1 at (0,1): the place succeeds and
    crafts 2. *)
Lemma place_equal_doubles_and_wins_witness :
  inventory demoCarrying = Some 1 ∧
  resolve demoLuck (modifiedCaches demoCarrying) 0 1 = CacheOf 1 ∧
  cellDistance (getPlayerCell demoCarrying) (0, 1) ≤ PROXIMITY_CELLS ∧
  ∃ st', requestPlace 0 1 demoCarrying = Some (st', Crafted (1 * 2)) ∧
         inventory st' = None ∧ hasCrafted st' = false.
Proof.
  split; [run|]. split; [run|]. split; [run_le|].
  destruct (place_equal_doubles_and_wins demoLuck demoCarrying 0 1 1)
    as (st' & Hreq & _ & _ & _ & Hinv & Hflag & _).
  - exact demoCarrying_reachable.
  - run.
  - run_some.
  - run.
  - run_le.
  - exists st'. split; [exact Hreq|]. split; [exact Hinv|].
    rewrite Hflag. run.
Defined.

(** Picking up the token of (0,0) and churning the viewport. *)
Lemma overlay_survives_eviction_witness :
  requestPickup 0 0 demoStart = Some (demoCarrying, PickedUp) ∧
  modifiedCaches demoReturned = modifiedCaches demoCarrying ∧
  resolve demoLuck (modifiedCaches demoReturned) 0 0 = NoCache ∧
  caches demoReturned !! cellKey 0 0 = None.
Proof.
  split; [run|].
  destruct (overlay_survives_eviction demoLuck demoStart 0 0 demoCarrying)
    as (_ & _ & _ & _ & Hchurn).
  - exact demoStart_reachable.
  - run.
  - apply (Hchurn [MoveEnd (viewAt 5 6 5 6);
                   MoveEnd (viewAt (-2) 2 (-2) 2)]).
    repeat constructor.
Defined.

(** The first materialization of cell (0,0). *)
Lemma materialize_follows_resolver_witness :
  cellRecords initial !! cellKey 0 0 = None ∧
  caches (cellRendered demoLuck 0 0 initial) !! cellKey 0 0 =
    shown (resolve demoLuck (modifiedCaches initial) 0 0).
Proof.
  split; [run|].
  destruct (materialize_follows_resolver demoLuck initial 0 0) as (H & _).
  - exact (reachable_initial demoLuck).
  - run.
  - exact H.
Defined.

(** C4, the claim as stated fails: cell (0,0) was emptied by a pick-up, left
    the viewport and came back; it resolves to no cache, its overlay entry
    is the explicit-empty mark, and the player, carrying a token of value 1
    and standing on the cell, drops it there.  After the click the overlay
    entry is the token 1 and the cell has a cache again. *)
Lemma drop_creates_cache_counterexample :
  reachable demoLuck demoReturned ∧
  resolve demoLuck (modifiedCaches demoReturned) 0 0 = NoCache ∧
  modifiedCaches demoReturned !! cellKey 0 0 = Some None ∧
  caches demoReturned !! cellKey 0 0 = None ∧
  ∃ st', handle demoLuck (ClickDrop 0 0) demoReturned =
           Some (st', Some (Dropped 1)) ∧
         modifiedCaches st' !! cellKey 0 0 = Some (Some 1) ∧
         resolve demoLuck (modifiedCaches st') 0 0 = CacheOf 1 ∧
         caches st' !! cellKey 0 0 = Some {| value := 1 |}.
Proof.
  split; [exact demoReturned_reachable|].
  split; [run|]. split; [run|]. split; [run|].
  exists (dropClick 0 0 demoReturned).1.
  split; [run|]. split; [run|]. split; run.
Qed.

Lemma only_drop_creates_cache_witness :
  resolve demoLuck (modifiedCaches demoReturned) 0 0 = NoCache ∧
  inventory demoReturned = Some 1 ∧
  requestPlace 0 0 demoReturned = None ∧
  handle demoLuck (ClickDrop 0 0) demoReturned =
    Some (droppedOn (cellKey 0 0) 1 demoReturned, Some (Dropped 1)) ∧
  inventory (droppedOn (cellKey 0 0) 1 demoReturned) = None ∧
  caches (droppedOn (cellKey 0 0) 1 demoReturned) !! cellKey 0 0 =
    Some {| value := 1 |}.
Proof.
  split; [run|]. split; [run|].
  destruct (only_drop_creates_cache demoLuck demoReturned 0 0)
    as (Hplace & _ & Hdrop & _).
  - exact demoReturned_reachable.
  - run.
  - split; [exact Hplace|].
    destruct (Hdrop {| cr_i := 0; cr_j := 0; rect := DropPopup |} 1)
      as (_ & Hh & _ & _ & Hc & Hi & _).
    + run.
    + reflexivity.
    + run.
    + run_le.
    + split; [exact Hh|]. split; [exact Hi|exact Hc].
Defined.

(** C5, the claim as stated fails: carrying a token, two cells away from the
    cache of (0,2), the pick-up is rejected as too far, not as already
    carrying. *)
Lemma pickup_far_while_carrying_counterexample :
  inventory demoCarrying = Some 1 ∧
  caches demoCarrying !! cellKey 0 2 = Some {| value := 1 |} ∧
  requestPickup 0 2 demoCarrying = Some (demoCarrying, TooFar 2) ∧
  requestPickup 0 2 demoCarrying ≠ Some (demoCarrying, AlreadyCarrying).
Proof. split; [run|]. split; [run|]. split; [run|]. vm_compute. discriminate. Qed.

Lemma pickup_rejected_while_carrying_witness :
  inventory demoCarrying = Some 1 ∧
  caches demoCarrying !! cellKey 0 1 = Some {| value := 1 |} ∧
  requestPickup 0 1 demoCarrying = Some (demoCarrying, AlreadyCarrying).
Proof.
  split; [run|]. split; [run|].
  destruct (pickup_rejected_while_carrying demoCarrying 0 1 1
              {| value := 1 |}) as (H & _).
  - run.
  - run.
  - rewrite H. run.
Defined.

Lemma proximity_boundary_inclusive_witness :
  caches demoStart !! cellKey 0 1 = Some {| value := 1 |} ∧
  cellDistance (getPlayerCell demoStart) (0, 1) = PROXIMITY_CELLS ∧
  ∃ st', requestPickup 0 1 demoStart = Some (st', PickedUp) ∧
         inventory st' = Some 1.
Proof.
  split; [run|]. split; [run|].
  destruct (proximity_boundary_inclusive demoStart 0 1 {| value := 1 |})
    as (_ & Hat & _).
  - run.
  - destruct Hat as (Hpick & _); [run|]. apply Hpick. run.
Defined.

(** C7, the claim as stated fails: carrying 1, two cells away from the cache
    of value 3 at (2,0), the place is rejected as too far, not as a value
    mismatch. *)
Lemma place_far_mismatch_counterexample :
  reachable demoLuck demoCarrying ∧
  inventory demoCarrying = Some 1 ∧
  resolve demoLuck (modifiedCaches demoCarrying) 2 0 = CacheOf 3 ∧
  caches demoCarrying !! cellKey 2 0 = Some {| value := 3 |} ∧
  requestPlace 2 0 demoCarrying = Some (demoCarrying, TooFar 2) ∧
  requestPlace 2 0 demoCarrying ≠ Some (demoCarrying, ValueMismatch).
Proof.
  split; [exact demoCarrying_reachable|].
  split; [run|]. split; [run|]. split; [run|]. split; [run|].
  vm_compute. discriminate.
Qed.

Lemma place_mismatch_rejected_witness :
  inventory demoCarrying = Some 1 ∧
  resolve demoLuck (modifiedCaches demoCarrying) 1 0 = CacheOf 3 ∧
  requestPlace 1 0 demoCarrying = Some (demoCarrying, ValueMismatch).
Proof.
  split; [run|]. split; [run|].
  destruct (place_mismatch_rejected demoLuck demoCarrying 1 0 1 3)
    as (_ & H).
  - exact demoCarrying_reachable.
  - run.
  - run_some.
  - run.
  - discriminate.
  - rewrite H. run.
Defined.

(** Moving the viewport from cells -2..2 to cells -1..3 on both axes. *)
Lemma viewport_update_exact_witness :
  let st' := (updateVisibleCells demoLuck (viewAt (-1) 3 (-1) 3) demoStart).1 in
  let delta := (updateVisibleCells demoLuck (viewAt (-1) 3 (-1) 3) demoStart).2 in
  is_Some (cellRecords st' !! cellKey 3 3) ∧
  (3, 3) ∈ enteredCells delta ∧
  (-2, 0) ∈ leftCells delta ∧
  cellRecords st' !! cellKey 0 0 = cellRecords demoStart !! cellKey 0 0.
Proof.
  destruct (viewport_update_exact demoLuck demoStart (viewAt (-1) 3 (-1) 3))
    as (Hdom & _ & Hin & Hout & _ & _ & Hkeep).
  - exact demoStart_reachable.
  - split; [|split; [|split]].
    + apply Hdom. exists 3, 3. split; [reflexivity|]. vm_compute.
      repeat split; discriminate.
    + apply Hin. split; [run_some|run].
    + apply Hout. split; [run_some|run].
    + apply Hkeep; run_some.
Defined.

Lemma generator_and_resolver_repeatable_witness :
  modifiedCaches initial !! cellKey 0 1 =
    modifiedCaches demoStart !! cellKey 0 1 ∧
  resolve demoLuck (modifiedCaches initial) 0 1 =
    resolve demoLuck (modifiedCaches demoStart) 0 1.
Proof.
  split; [run|].
  destruct (generator_and_resolver_repeatable demoLuck initial demoStart 0 1)
    as (H & _).
  - run.
  - exact H.
Defined.

Lemma player_cell_rounds_past_rectangle_witness :
  latLngToCell midCell = (1, 1) ∧
  cellDistance (latLngToCell midCell) (0, 0) = 1.
Proof.
  destruct (player_cell_rounds_past_rectangle midCell) as (H1 & _ & _ & _ & H2).
  - vm_compute. discriminate.
  - vm_compute. discriminate.
  - split; [exact H1 | exact H2].
Defined.

(** * Further properties of the program *)

Lemma Qfloor_add_Z (x : Q) (d : Z) : Qfloor (x + inject_Z d) = Qfloor x + d.
Proof.
  pose proof (Qfloor_le x) as Hlo. pose proof (Qlt_floor x) as Hhi.
  pose proof (Qfloor_le (x + inject_Z d)) as Hlo'.
  pose proof (Qlt_floor (x + inject_Z d)) as Hhi'.
  rewrite inject_Z_plus in Hhi, Hhi'. change (inject_Z 1) with 1%Q in *.
  assert (Qfloor (x + inject_Z d) < Qfloor x + d + 1) as H1.
  { rewrite Zlt_Qlt, !inject_Z_plus. change (inject_Z 1) with 1%Q. lra. }
  assert (Qfloor x + d < Qfloor (x + inject_Z d) + 1) as H2.
  { rewrite Zlt_Qlt, !inject_Z_plus. change (inject_Z 1) with 1%Q. lra. }
  lia.
Qed.

Lemma Math_round_add_Z (x : Q) (d : Z) :
  Math_round (x + inject_Z d) = Math_round x + d.
Proof.
  unfold Math_round. rewrite <- Qfloor_add_Z. apply Qfloor_comp. ring.
Qed.

Lemma latLngToCell_shift (p : LatLng) (di dj : Z) :
  latLngToCell {| lat := lat p + inject_Z di * TILE_DEGREES;
                  lng := lng p + inject_Z dj * TILE_DEGREES |} =
  ((latLngToCell p).1 + di, (latLngToCell p).2 + dj).
Proof.
  unfold latLngToCell. simpl. f_equal.
  - rewrite <- Math_round_add_Z. apply Qfloor_comp.
    unfold TILE_DEGREES. field.
  - rewrite <- Math_round_add_Z. apply Qfloor_comp.
    unfold TILE_DEGREES. field.
Qed.

Lemma cellDistance_shift (p c : Cell) (di dj : Z) :
  Z.abs di ≤ 1 → Z.abs dj ≤ 1 →
  Z.abs (cellDistance (p.1 + di, p.2 + dj) c - cellDistance p c) ≤ 1.
Proof. unfold cellDistance. simpl. lia. Qed.

Section Extras.
Variable luck : string → Q.

(** X1. Cell keys round-trip: splitting the key of cell [(i, j)] at the
    comma and converting both pieces back to numbers, as the removal loop of
    [updateVisibleCells] and [updateCacheMarkerColor] do, gives back
    [(i, j)]; hence two different cells never share a key, and the key is
    also the string [drawCell] hands to [luck] for the presence roll. *)
Theorem cell_key_round_trip i j :
  parseKey (cellKey i j) = Some (i, j) ∧
  split_comma (cellKey i j) = [numToString i; numToString j] ∧
  Number (numToString i) = Some i ∧
  (∀ i' j', cellKey i j = cellKey i' j' → i = i' ∧ j = j') ∧
  arrayToString [numToString i; numToString j] = cellKey i j.
Proof.
  split; [apply parseKey_cellKey|]. split.
  - unfold cellKey.
    rewrite split_comma_append by apply commaFree_numToString.
    by rewrite split_comma_commaFree by apply commaFree_numToString.
  - split; [apply Number_numToString|]. split; [|done].
    intros i' j'. apply cellKey_inj.
Qed.

(** X2. The player's cell follows the movement keys exactly: a key press
    moves the computed player cell by one cell in the key's direction (W
    north, S south, A west, D east), whatever the map bounds are, and no
    other event (map move, pick-up, place, drop) moves it.  The distance to
    any cell therefore changes by at most 1 per event. *)
Theorem player_cell_follows_keys ev st st' m :
  handle luck ev st = Some (st', m) →
  getPlayerCell st' =
    match ev with
    | Keydown k _ => ((getPlayerCell st).1 + (keyDelta k).1,
                      (getPlayerCell st).2 + (keyDelta k).2)
    | _ => getPlayerCell st
    end ∧
  (∀ c, Z.abs (cellDistance (getPlayerCell st') c -
               cellDistance (getPlayerCell st) c) ≤ 1).
Proof.
  intros Hh.
  assert (getPlayerCell st' =
    match ev with
    | Keydown k _ => ((getPlayerCell st).1 + (keyDelta k).1,
                      (getPlayerCell st).2 + (keyDelta k).2)
    | _ => getPlayerCell st
    end) as Hcell.
  { unfold getPlayerCell.
    destruct ev as [k b|b|i j|i j|i j]; simpl in Hh.
    - injection Hh as <- <-. unfold movePlayerByCells.
      match goal with
      | |- context [updateVisibleCells luck b ?s] =>
          destruct (updateVisibleCells_frame luck b s) as (-> & _)
      end.
      simpl. apply latLngToCell_shift.
    - injection Hh as <- <-.
      by destruct (updateVisibleCells_frame luck b st) as (-> & _).
    - unfold requestPickup in Hh.
      destruct (caches st !! cellKey i j); [|done]. simpl in Hh.
      injection Hh as <- <-. unfold pickupClick.
      destruct (_ <=? _); [|done]. by destruct (inventory st).
    - unfold requestPlace in Hh.
      destruct (caches st !! cellKey i j); [|done]. simpl in Hh.
      injection Hh as <- <-. unfold placeClick.
      destruct (_ <? _); [done|]. destruct (inventory st); [|done].
      destruct (_ =? _); [|done]. simpl.
      unfold triggerWin. simpl. by repeat case_match.
    - unfold requestDrop in Hh.
      destruct (cellRecords st !! cellKey i j) as [[? ? []]|]; try done.
      simpl in Hh. injection Hh as <- <-. unfold dropClick.
      destruct (_ <? _); [done|]. by destruct (inventory st). }
  split; [done|]. intros c. rewrite Hcell.
  destruct ev as [k b| | | |];
    try (rewrite Z.sub_diag; simpl; lia).
  apply cellDistance_shift; destruct k; simpl; lia.
Qed.

(** X3. [cellDistance] is a metric on cells: it is never negative, it is 0
    exactly between a cell and itself, it is symmetric, and it satisfies the
    triangle inequality.  A cell is within the proximity radius of the
    player exactly when both index differences are at most the radius. *)
Theorem cellDistance_metric (a b c : Cell) :
  0 ≤ cellDistance a b ∧
  (cellDistance a b = 0 ↔ a = b) ∧
  cellDistance a b = cellDistance b a ∧
  cellDistance a c ≤ cellDistance a b + cellDistance b c ∧
  (cellDistance a b ≤ PROXIMITY_CELLS ↔
   Z.abs (a.1 - b.1) ≤ PROXIMITY_CELLS ∧ Z.abs (a.2 - b.2) ≤ PROXIMITY_CELLS).
Proof.
  destruct a as [a1 a2], b as [b1 b2], c as [c1 c2].
  unfold cellDistance. simpl. split; [lia|]. split.
  - split; [|intros [= -> ->]; lia].
    intros H. f_equal; lia.
  - split; [lia|]. split; lia.
Qed.

(** X4. The message a click handler writes tells what happened.  After a
    rejection (too far, already carrying, nothing to place, nothing to drop,
    value mismatch) the whole state is exactly as before, and each rejection
    names a real obstacle: too far reports the actual distance and that
    distance exceeds the radius; the inventory messages match the inventory.
    After a success the inventory has flipped: a pick-up starts with an
    empty slot and fills it, a place or a drop starts with a carried token
    and empties the slot. *)
Theorem click_message_is_truthful ev st st' m :
  handle luck ev st = Some (st', Some m) →
  (isRejection m = true → st' = st) ∧
  match m with
  | TooFar d =>
      PROXIMITY_CELLS < d ∧
      ∃ i j, d = cellDistance (getPlayerCell st) (i, j) ∧
             (ev = ClickPickup i j ∨ ev = ClickPlace i j ∨ ev = ClickDrop i j)
  | AlreadyCarrying => is_Some (inventory st)
  | NothingCarried | NothingToDrop => inventory st = None
  | ValueMismatch =>
      ∃ i j c v, ev = ClickPlace i j ∧ caches st !! cellKey i j = Some c ∧
                 inventory st = Some v ∧ v ≠ value c
  | PickedUp =>
      inventory st = None ∧
      ∃ i j c, ev = ClickPickup i j ∧ caches st !! cellKey i j = Some c ∧
               inventory st' = Some (value c)
  | Crafted v =>
      inventory st' = None ∧
      ∃ i j, ev = ClickPlace i j ∧ inventory st = Some (v `div` 2) ∧
             v = (v `div` 2) * 2 ∧
             caches st !! cellKey i j = Some {| value := v `div` 2 |}
  | Dropped v =>
      inventory st = Some v ∧ inventory st' = None ∧
      ∃ i j, ev = ClickDrop i j
  end.
Proof.
  destruct ev as [k b|b|i j|i j|i j]; simpl; try done.
  - unfold requestPickup.
    destruct (caches st !! cellKey i j) as [c|] eqn:Hc; [|done]. simpl.
    unfold pickupClick.
    destruct (Z.leb_spec (cellDistance (getPlayerCell st) (i, j))
                PROXIMITY_CELLS) as [Hnear|Hfar].
    + destruct (inventory st) as [v|] eqn:Hinv; intros [= <- <-]; simpl.
      * split; [done|]. by eexists.
      * split; [done|]. split; [done|]. by exists i, j, c.
    + intros [= <- <-]. simpl. split; [done|]. split; [done|].
      exists i, j. split; [done|]. by left.
  - unfold requestPlace.
    destruct (caches st !! cellKey i j) as [c|] eqn:Hc; [|done]. simpl.
    unfold placeClick.
    destruct (Z.ltb_spec PROXIMITY_CELLS
                (cellDistance (getPlayerCell st) (i, j))) as [Hfar|Hnear].
    + intros [= <- <-]. simpl. split; [done|]. split; [done|].
      exists i, j. split; [done|]. right. by left.
    + destruct (inventory st) as [v|] eqn:Hinv; [|by intros [= <- <-]].
      destruct (Z.eqb_spec v (value c)) as [->|Hne]; intros [= <- <-]; simpl.
      * split; [done|].
        match goal with
        | |- context [if negb ?c0 && ?b0 then triggerWin ?s else _] =>
            destruct (win_check_frame s c0 b0 eq_refl) as (_ & _ & -> & _)
        end.
        split; [done|]. exists i, j. rewrite Z.div_mul by done.
        split; [done|]. split; [done|]. split; [done|]. by destruct c.
      * split; [done|]. by exists i, j, c, v.
  - unfold requestDrop.
    destruct (cellRecords st !! cellKey i j) as [[? ? []]|]; try done.
    simpl. unfold dropClick.
    destruct (Z.ltb_spec PROXIMITY_CELLS
                (cellDistance (getPlayerCell st) (i, j))) as [Hfar|Hnear].
    + intros [= <- <-]. simpl. split; [done|]. split; [done|].
      exists i, j. split; [done|]. right. by right.
    + destruct (inventory st) as [v|] eqn:Hinv; intros [= <- <-]; simpl.
      * split; [done|]. split; [done|]. split; [done|]. by exists i, j.
      * done.
Qed.

Lemma invariant_caches_lookup st i j :
  invariant luck st →
  caches st !! cellKey i j =
    if decide (is_Some (cellRecords st !! cellKey i j))
    then shown (resolve luck (modifiedCaches st) i j)
    else None.
Proof.
  intros (Hkey & _ & Hmat & Hview). case_decide as Hrec.
  - destruct Hrec as [r Hr]. rewrite (Hview _ _ Hr).
    apply Hkey in Hr. by apply cellKey_inj in Hr as [<- <-].
  - destruct (caches st !! cellKey i j) eqn:Hc; [|done].
    exfalso. apply Hrec, Hmat. by rewrite Hc.
Qed.

(** X5. The [caches] map always agrees with the resolver.  In every
    reachable state, a cell with a record has an entry in [caches] exactly
    when the cell resolves to a cache, and the entry holds the resolved
    value; a cell without a record has no entry in [caches]; and every key
    stored in [caches] or [cellRecords] is the key of the cell it belongs
    to.  (This is about the program's maps; Leaflet markers are not
    modelled.) *)
Theorem reachable_caches_match_resolver st :
  reachable luck st →
  (∀ i j,
     caches st !! cellKey i j =
       if decide (is_Some (cellRecords st !! cellKey i j))
       then shown (resolve luck (modifiedCaches st) i j)
       else None) ∧
  (∀ k r, cellRecords st !! k = Some r → k = cellKey (cr_i r) (cr_j r)) ∧
  (∀ k, is_Some (caches st !! k) →
        ∃ i j, k = cellKey i j ∧ is_Some (cellRecords st !! k)).
Proof.
  intros Hreach.
  pose proof (reachable_invariant luck st Hreach) as Hinv.
  split; [intros i j; by apply invariant_caches_lookup|].
  destruct Hinv as (Hkey & _ & Hmat & _). split; [done|].
  intros k Hk. destruct (Hmat k Hk) as [r Hr].
  exists (cr_i r), (cr_j r). split; [by apply Hkey|by eexists].
Qed.

Lemma initialValue_range r : 1 ≤ initialValue r ≤ 5.
Proof. unfold initialValue. repeat case_match; lia. Qed.

Lemma tokenValue_base v : 1 ≤ v ≤ 5 → tokenValue v.
Proof. intros H. exists v, 0. split; [done|]. split; [done|]. simpl. lia. Qed.

Lemma tokenValue_double v : tokenValue v → tokenValue (v * 2).
Proof.
  intros (base & k & Hb & Hk & ->). exists base, (k + 1).
  split; [done|]. split; [lia|]. rewrite Z.pow_add_r by lia. simpl. lia.
Qed.

Lemma tokenValue_pos v : tokenValue v → 1 ≤ v.
Proof.
  intros (base & k & Hb & Hk & ->).
  pose proof (Z.pow_pos_nonneg 2 k). nia.
Qed.

Lemma resolve_tokenValue st i j v :
  tokens_ok st → resolve luck (modifiedCaches st) i j = CacheOf v →
  tokenValue v.
Proof.
  intros [_ Hov]. unfold resolve, generate.
  destruct (modifiedCaches st !! cellKey i j) as [[x|]|] eqn:Hm.
  - intros [= <-]. by apply (Hov _ _ Hm).
  - done.
  - destruct (Qltb _ _); [|done]. intros [= <-].
    apply tokenValue_base, initialValue_range.
Qed.

Lemma tokens_ok_overlay_update key x inv st :
  tokens_ok st →
  (∀ v, x = Some v → tokenValue v) → (∀ v, inv = Some v → tokenValue v) →
  ∀ c, tokens_ok (setInventory inv
                    (setModified (<[key := x]> (modifiedCaches st))
                       (setCaches c st))).
Proof.
  intros [Hinv Hov] Hx Hi c. split; simpl; [done|].
  intros k v. destruct (decide (k = key)) as [->|Hne].
  - rewrite lookup_insert_eq. intros [= ->]. by apply Hx.
  - rewrite lookup_insert_ne by done. apply Hov.
Qed.

Lemma handle_tokens_ok ev st st' m :
  invariant luck st → tokens_ok st →
  handle luck ev st = Some (st', m) → tokens_ok st'.
Proof.
  intros Hinv Htok. destruct ev as [k b|b|i j|i j|i j]; simpl.
  - intros [= <- <-]. unfold movePlayerByCells.
    match goal with
    | |- context [updateVisibleCells luck b ?s] =>
        destruct (updateVisibleCells_frame luck b s) as (_ & Hi & Hm & _)
    end.
    unfold tokens_ok. by rewrite Hi, Hm.
  - intros [= <- <-].
    destruct (updateVisibleCells_frame luck b st) as (_ & Hi & Hm & _).
    unfold tokens_ok. by rewrite Hi, Hm.
  - unfold requestPickup.
    destruct (caches st !! cellKey i j) as [c|] eqn:Hc; [|done]. simpl.
    intros [= <- <-]. unfold pickupClick.
    destruct (_ <=? _); [|done]. destruct (inventory st) eqn:Hi; [done|].
    apply tokens_ok_overlay_update; [done|done|].
    intros v [= <-].
    destruct (invariant_cache_resolved luck st _ c Hinv Hc)
      as (i' & j' & _ & Hr).
    by apply (resolve_tokenValue st i' j').
  - unfold requestPlace.
    destruct (caches st !! cellKey i j) as [c|] eqn:Hc; [|done]. simpl.
    intros [= <- <-]. unfold placeClick.
    destruct (_ <? _); [done|]. destruct (inventory st) eqn:Hi; [|done].
    destruct (_ =? _); [|done].
    assert (tokenValue (value c * 2)) as Hdouble.
    { apply tokenValue_double.
      destruct (invariant_cache_resolved luck st _ c Hinv Hc)
        as (i' & j' & _ & Hr).
      by apply (resolve_tokenValue st i' j'). }
    match goal with
    | |- context [if negb ?c0 && ?b0 then triggerWin ?s else _] =>
        destruct (win_check_frame s c0 b0 eq_refl) as (Hm & _ & Hinv' & _);
        pose proof (tokens_ok_overlay_update (cellKey i j)
                      (Some (value c * 2)) None st Htok) as Hs
    end.
    unfold tokens_ok. simpl in *. rewrite Hm, Hinv'.
    apply (Hs ltac:(by intros v [= <-]) ltac:(done) (caches st)).
  - unfold requestDrop.
    destruct (cellRecords st !! cellKey i j) as [[? ? []]|]; try done.
    simpl. intros [= <- <-]. unfold dropClick.
    destruct (_ <? _); [done|].
    destruct (inventory st) as [val|] eqn:Hi; [|done].
    apply tokens_ok_overlay_update; [done| |done].
    intros v [= <-]. destruct Htok as [Htok _]. by apply Htok.
Qed.

Lemma reachable_tokens_ok st : reachable luck st → tokens_ok st.
Proof.
  induction 1 as [|st ev st' m Hreach IH Hh].
  - split; [done|]. intros k v. simpl. by rewrite lookup_empty.
  - apply (handle_tokens_ok ev st st' m); [|done|done].
    by apply reachable_invariant.
Qed.

(** X6. Token values only ever double.  In every reachable state the carried
    token, every token recorded in the overlay, every cache on the map and
    every value the resolver gives is a baseline value (1 to 5) multiplied
    by a power of two; in particular every token value is at least 1. *)
Theorem token_values_only_double st :
  reachable luck st →
  (∀ v, inventory st = Some v → tokenValue v ∧ 1 ≤ v) ∧
  (∀ k v, modifiedCaches st !! k = Some (Some v) → tokenValue v ∧ 1 ≤ v) ∧
  (∀ k c, caches st !! k = Some c → tokenValue (value c) ∧ 1 ≤ value c) ∧
  (∀ i j v, resolve luck (modifiedCaches st) i j = CacheOf v →
            tokenValue v ∧ 1 ≤ v).
Proof.
  intros Hreach.
  pose proof (reachable_invariant luck st Hreach) as Hinv.
  pose proof (reachable_tokens_ok st Hreach) as Htok.
  assert (∀ v, tokenValue v → tokenValue v ∧ 1 ≤ v) as Hpos
    by (intros v Hv; split; [done|by apply tokenValue_pos]).
  split; [|split; [|split]].
  - intros v Hv. apply Hpos. destruct Htok as [H _]. by apply H.
  - intros k v Hv. apply Hpos. destruct Htok as [_ H]. by apply (H k).
  - intros k c Hc. apply Hpos.
    destruct (invariant_cache_resolved luck st _ c Hinv Hc)
      as (i' & j' & _ & Hr).
    by apply (resolve_tokenValue st i' j').
  - intros i j v Hr. apply Hpos. by apply (resolve_tokenValue st i j).
Qed.

(** X7. The win flag is set by crafting only.  If an event turns
    [hasCrafted] from false to true, the event is a Place click that
    succeeded and crafted a value of at least [WIN_THRESHOLD]; picking up or
    dropping a token, moving, or a baseline cache of value 5 never sets the
    flag. *)
Theorem win_only_by_crafting ev st st' m :
  handle luck ev st = Some (st', m) →
  hasCrafted st = false → hasCrafted st' = true →
  ∃ i j v, ev = ClickPlace i j ∧ m = Some (Crafted (v * 2)) ∧
           inventory st = Some v ∧
           caches st !! cellKey i j = Some {| value := v |} ∧
           WIN_THRESHOLD ≤ v * 2.
Proof.
  intros Hh Hno Hyes.
  destruct ev as [k b|b|i j|i j|i j]; simpl in Hh.
  - injection Hh as <- <-. exfalso. unfold movePlayerByCells in Hyes.
    match type of Hyes with
    | context [updateVisibleCells luck b ?s] =>
        destruct (updateVisibleCells_frame luck b s) as (_ & _ & _ & Hc)
    end.
    rewrite Hc in Hyes. simpl in Hyes. congruence.
  - injection Hh as <- <-. exfalso.
    destruct (updateVisibleCells_frame luck b st) as (_ & _ & _ & Hc).
    congruence.
  - exfalso. unfold requestPickup in Hh.
    destruct (caches st !! cellKey i j); [|done]. simpl in Hh.
    injection Hh as <- <-. revert Hyes. unfold pickupClick.
    destruct (_ <=? _); [|simpl; congruence].
    destruct (inventory st); simpl; congruence.
  - unfold requestPlace in Hh.
    destruct (caches st !! cellKey i j) as [c|] eqn:Hc; [|done].
    simpl in Hh. injection Hh as <- <-. revert Hyes. unfold placeClick.
    destruct (_ <? _); [simpl; congruence|].
    destruct (inventory st) as [v|] eqn:Hinv; [|simpl; congruence].
    destruct (Z.eqb_spec v (value c)) as [->|Hne]; [|simpl; congruence].
    match goal with
    | |- context [if negb ?c0 && ?b0 then triggerWin ?s else _] =>
        destruct (win_check_frame s c0 b0 eq_refl) as (_ & _ & _ & Hflag)
    end.
    simpl in Hflag |- *. rewrite Hflag, Hno. simpl. intros Hyes.
    exists i, j, (value c). split; [done|]. split; [done|].
    split; [done|]. split; [by destruct c|]. by apply Z.leb_le.
  - exfalso. unfold requestDrop in Hh.
    destruct (cellRecords st !! cellKey i j) as [[? ? []]|]; try done.
    simpl in Hh. injection Hh as <- <-. revert Hyes. unfold dropClick.
    destruct (_ <? _); [simpl; congruence|].
    destruct (inventory st); simpl; congruence.
Qed.

(** X8. The overlay is written only where the player can act, and never
    shrinks.  In a reachable state, an event that changes the overlay entry
    of a key is a click on the cell of that key, the cell has a record (it is
    inside the viewport) and lies within the proximity radius of the player;
    and an overlay entry, once present, is present after every later
    event. *)
Theorem overlay_written_only_in_reach ev st st' m k :
  reachable luck st →
  handle luck ev st = Some (st', m) →
  (is_Some (modifiedCaches st !! k) → is_Some (modifiedCaches st' !! k)) ∧
  (modifiedCaches st' !! k ≠ modifiedCaches st !! k →
   ∃ i j, k = cellKey i j ∧
          (ev = ClickPickup i j ∨ ev = ClickPlace i j ∨ ev = ClickDrop i j) ∧
          is_Some (cellRecords st !! k) ∧
          cellDistance (getPlayerCell st) (i, j) ≤ PROXIMITY_CELLS).
Proof.
  intros Hreach Hh.
  destruct (reachable_invariant luck st Hreach) as (_ & _ & Hmat & _).
  assert (∀ i j x,
    modifiedCaches st' = <[cellKey i j := x]> (modifiedCaches st) →
    (ev = ClickPickup i j ∨ ev = ClickPlace i j ∨ ev = ClickDrop i j) →
    is_Some (cellRecords st !! cellKey i j) →
    cellDistance (getPlayerCell st) (i, j) ≤ PROXIMITY_CELLS →
    (is_Some (modifiedCaches st !! k) → is_Some (modifiedCaches st' !! k)) ∧
    (modifiedCaches st' !! k ≠ modifiedCaches st !! k →
     ∃ i j, k = cellKey i j ∧
       (ev = ClickPickup i j ∨ ev = ClickPlace i j ∨ ev = ClickDrop i j) ∧
       is_Some (cellRecords st !! k) ∧
       cellDistance (getPlayerCell st) (i, j) ≤ PROXIMITY_CELLS)) as Hwrite.
  { intros i j x -> Hev Hrec Hdist.
    destruct (decide (k = cellKey i j)) as [->|Hne].
    - rewrite lookup_insert_eq. split; [by eexists|].
      intros _. by exists i, j.
    - rewrite lookup_insert_ne by done. done. }
  assert (modifiedCaches st' = modifiedCaches st →
    (is_Some (modifiedCaches st !! k) → is_Some (modifiedCaches st' !! k)) ∧
    (modifiedCaches st' !! k ≠ modifiedCaches st !! k →
     ∃ i j, k = cellKey i j ∧
       (ev = ClickPickup i j ∨ ev = ClickPlace i j ∨ ev = ClickDrop i j) ∧
       is_Some (cellRecords st !! k) ∧
       cellDistance (getPlayerCell st) (i, j) ≤ PROXIMITY_CELLS)) as Hsame.
  { intros ->. done. }
  destruct ev as [key b|b|i j|i j|i j]; simpl in Hh.
  - injection Hh as <- <-. apply Hsame. unfold movePlayerByCells.
    match goal with
    | |- context [updateVisibleCells luck b ?s] =>
        by destruct (updateVisibleCells_frame luck b s) as (_ & _ & -> & _)
    end.
  - injection Hh as <- <-. apply Hsame.
    by destruct (updateVisibleCells_frame luck b st) as (_ & _ & -> & _).
  - unfold requestPickup in Hh.
    destruct (caches st !! cellKey i j) as [c|] eqn:Hc; [|done].
    simpl in Hh. injection Hh as <- <-. unfold pickupClick in *.
    destruct (Z.leb_spec (cellDistance (getPlayerCell st) (i, j))
                PROXIMITY_CELLS) as [Hnear|Hfar]; [|by apply Hsame].
    destruct (inventory st); [by apply Hsame|].
    apply (Hwrite i j None); [done|by left| |done].
    apply Hmat. by rewrite Hc.
  - unfold requestPlace in Hh.
    destruct (caches st !! cellKey i j) as [c|] eqn:Hc; [|done].
    simpl in Hh. injection Hh as <- <-. unfold placeClick in *.
    destruct (Z.ltb_spec PROXIMITY_CELLS
                (cellDistance (getPlayerCell st) (i, j))) as [Hfar|Hnear];
      [by apply Hsame|].
    destruct (inventory st); [|by apply Hsame].
    destruct (_ =? _); [|by apply Hsame].
    apply (Hwrite i j (Some (value c * 2))); [|right; by left| |done].
    + cbn [fst].
      match goal with
      | |- context [if negb ?c0 && ?b0 then triggerWin ?s else _] =>
          by destruct (win_check_frame s c0 b0 eq_refl) as (-> & _)
      end.
    + apply Hmat. by rewrite Hc.
  - unfold requestDrop in Hh.
    destruct (cellRecords st !! cellKey i j) as [[ri rj []]|] eqn:Hrec;
      try done.
    simpl in Hh. injection Hh as <- <-. unfold dropClick in *.
    destruct (Z.ltb_spec PROXIMITY_CELLS
                (cellDistance (getPlayerCell st) (i, j))) as [Hfar|Hnear];
      [by apply Hsame|].
    destruct (inventory st) as [val|]; [|by apply Hsame].
    apply (Hwrite i j (Some val)); [done|right; by right|by eexists|done].
Qed.

(** ** Viewport updates, once more *)

Lemma renderAll_id cells st :
  (∀ c, c ∈ cells → is_Some (cellRecords st !! keyOf c)) →
  renderAll luck cells st = st.
Proof.
  intros Hall. unfold renderAll.
  apply (foldl_invariant _ (λ s, s = st)); [done|].
  intros s c Hc ->. destruct (Hall c Hc) as [r Hr].
  by apply (cellRendered_has luck _ _ _ r).
Qed.

Lemma renderAll_draws cells st i j :
  (i, j) ∈ cells → cellRecords st !! cellKey i j = None →
  cellRecords (renderAll luck cells st) !! cellKey i j =
    Some {| cr_i := i; cr_j := j; rect := (drawCell luck i j st).1 |}.
Proof.
  revert st. induction cells as [|x cs IH]; intros st Hin Hnone.
  { by apply elem_of_nil in Hin. }
  change (renderAll luck (x :: cs) st)
    with (renderAll luck cs (cellRendered luck x.1 x.2 st)).
  destruct (decide (x = (i, j))) as [->|Hne].
  - simpl.
    assert (cellRecords (cellRendered luck i j st) !! cellKey i j =
            Some {| cr_i := i; cr_j := j; rect := (drawCell luck i j st).1 |})
      as Hrec by by apply cellRendered_records_key.
    destruct (renderAll_keeps luck cs (cellRendered luck i j st)
                (cellKey i j)) as [-> _]; [by rewrite Hrec|done].
  - apply elem_of_cons in Hin as [Heq|Hin]; [congruence|].
    assert (cellKey i j ≠ cellKey x.1 x.2) as Hk.
    { intros Heq. apply cellKey_inj in Heq as [-> ->].
      apply Hne. by destruct x. }
    rewrite IH; [|done|by rewrite cellRendered_records_ne].
    rewrite !drawCell_popup.
    by destruct (cellRendered_frame luck x.1 x.2 st) as (_ & _ & -> & _).
Qed.

Lemma length_bind_const {A B} (f : A → list B) (l : list A) n :
  (∀ x, length (f x) = n) → length (l ≫= f) = (length l * n)%nat.
Proof.
  intros Hf. induction l as [|x l IH]; [done|].
  rewrite bind_cons, length_app, IH, Hf. simpl. lia.
Qed.

Lemma length_wantedCells s n w e :
  length (wantedCells s n w e) =
    (Z.to_nat (n + 1 - s) * Z.to_nat (e + 1 - w))%nat.
Proof.
  unfold wantedCells.
  rewrite (length_bind_const _ _ (Z.to_nat (e + 1 - w))).
  - by rewrite length_seqZ.
  - intros i. rewrite (length_bind_const _ _ 1%nat) by done.
    rewrite length_seqZ. lia.
Qed.

(** X9. A viewport update is idempotent: in a reachable state, calling
    [updateVisibleCells] a second time with the same bounds (as happens when
    a key press is followed by the map's [moveend]) changes nothing, draws no
    cell and removes none. *)
Theorem viewport_update_idempotent st b :
  reachable luck st →
  let st' := (updateVisibleCells luck b st).1 in
  updateVisibleCells luck b st' =
    (st', {| enteredCells := []; leftCells := [] |}).
Proof.
  intros Hreach st'.
  pose proof (reachable_invariant luck st Hreach) as Hinv.
  pose proof (updateVisibleCells_invariant luck b st Hinv) as Hinv'.
  fold st' in Hinv'.
  assert (∀ c, c ∈ viewCells b → is_Some (cellRecords st' !! keyOf c))
    as Hall.
  { intros c Hc. unfold st'. rewrite updated_records_dom by done.
    apply list_elem_of_fmap. by exists c. }
  rewrite updateVisibleCells_passes by done.
  assert (evicted luck b st' = []) as ->.
  { destruct (evicted luck b st') as [|k ks] eqn:He; [done|].
    exfalso.
    assert (k ∈ evicted luck b st') as Hk by (rewrite He; left).
    apply elem_of_evicted in Hk as [Hs Hout]. apply Hout.
    unfold st' in Hs. by rewrite updated_records_dom in Hs. }
  rewrite renderAll_id by done. simpl. f_equal. f_equal.
  destruct (foldl (visitCell luck) (st', ∅, []) (viewCells b)).2
    as [|c cs] eqn:He; [done|].
  exfalso.
  assert (c ∈ (foldl (visitCell luck) (st', ∅, []) (viewCells b)).2) as Hc
    by (rewrite He; left).
  apply visit_entered_elem in Hc as [[]%elem_of_nil|[Hc Hnone]].
  destruct (Hall c Hc) as [r Hr]. congruence.
Qed.

(** X10. After a viewport update the [caches] map and the set of recorded
    cells depend on the overlay and the bounds only.  For two reachable
    states with the same overlay, a viewport update with the same bounds
    gives equal [caches] maps and records that name the same cells, and a
    cell the update draws in both states gets the same record, popup
    included.  What does depend on the past is the popup of a rectangle that
    stayed: a record the update keeps is the old record, with the popup it
    was drawn with, and a record it creates has the popup [drawCell] gives
    for the current overlay. *)
Theorem updated_caches_depend_on_overlay_only st1 st2 b :
  reachable luck st1 → reachable luck st2 →
  modifiedCaches st1 = modifiedCaches st2 →
  let s1 := (updateVisibleCells luck b st1).1 in
  let s2 := (updateVisibleCells luck b st2).1 in
  caches s1 = caches s2 ∧
  (∀ k, (λ r, (cr_i r, cr_j r)) <$> cellRecords s1 !! k =
        (λ r, (cr_i r, cr_j r)) <$> cellRecords s2 !! k) ∧
  (∀ i j, cellRecords st1 !! cellKey i j = None →
          cellRecords st2 !! cellKey i j = None →
          cellRecords s1 !! cellKey i j = cellRecords s2 !! cellKey i j) ∧
  (∀ i j r, cellRecords s1 !! cellKey i j = Some r →
            match cellRecords st1 !! cellKey i j with
            | Some r0 => r = r0
            | None => r = {| cr_i := i; cr_j := j;
                             rect := (drawCell luck i j st1).1 |}
            end).
Proof.
  intros Hr1 Hr2 Hmod s1 s2.
  pose proof (reachable_invariant luck st1 Hr1) as Hi1.
  pose proof (reachable_invariant luck st2 Hr2) as Hi2.
  pose proof (updateVisibleCells_invariant luck b st1 Hi1) as Hi1'.
  pose proof (updateVisibleCells_invariant luck b st2 Hi2) as Hi2'.
  fold s1 in Hi1'. fold s2 in Hi2'.
  assert (modifiedCaches s1 = modifiedCaches s2) as Hmod'.
  { unfold s1, s2.
    destruct (updateVisibleCells_frame luck b st1) as (_ & _ & -> & _).
    by destruct (updateVisibleCells_frame luck b st2) as (_ & _ & -> & _). }
  assert (∀ k, is_Some (cellRecords s1 !! k) ↔ is_Some (cellRecords s2 !! k))
    as Hdom.
  { intros k. unfold s1, s2. by rewrite !updated_records_dom. }
  assert (∀ k r1 r2, cellRecords s1 !! k = Some r1 →
                     cellRecords s2 !! k = Some r2 →
                     (cr_i r1, cr_j r1) = (cr_i r2, cr_j r2)) as Hsame.
  { intros k r1 r2 H1 H2.
    destruct Hi1' as (Hk1 & _). destruct Hi2' as (Hk2 & _).
    apply Hk1 in H1. apply Hk2 in H2. rewrite H1 in H2.
    apply cellKey_inj in H2 as [-> ->]. done. }
  assert (∀ st i j, invariant luck st →
            cellRecords (updateVisibleCells luck b st).1 !! cellKey i j =
              if decide (cellKey i j ∈ keyOf <$> viewCells b)
              then match cellRecords st !! cellKey i j with
                   | Some r0 => Some r0
                   | None => Some {| cr_i := i; cr_j := j;
                                     rect := (drawCell luck i j st).1 |}
                   end
              else None) as Hshape.
  { intros st i j Hinv.
    destruct (updated_records_lookup luck b st (cellKey i j) Hinv)
      as [-> _].
    case_decide as Hin; [|done].
    destruct (cellRecords st !! cellKey i j) as [r0|] eqn:Hrec.
    - destruct (renderAll_keeps luck (viewCells b) st (cellKey i j))
        as [-> _]; [by rewrite Hrec|done].
    - apply renderAll_draws; [|done].
      apply list_elem_of_fmap in Hin as (c & Heq & Hc).
      by apply (inj keyOf (i, j)) in Heq as <-. }
  split; [|split; [|split]].
  - apply map_eq. intros k.
    destruct (caches s1 !! k) as [c1|] eqn:Hc1.
    + destruct Hi1' as (Hk1 & _ & Hm1 & Hv1).
      destruct (Hm1 k) as [r1 Hrec1]; [by rewrite Hc1|].
      destruct (proj1 (Hdom k)) as [r2 Hrec2]; [by eexists|].
      destruct Hi2' as (_ & _ & _ & Hv2).
      rewrite (Hv2 _ _ Hrec2), <- Hc1, (Hv1 _ _ Hrec1), Hmod'.
      by injection (Hsame _ _ _ Hrec1 Hrec2) as -> ->.
    + destruct (caches s2 !! k) as [c2|] eqn:Hc2; [|done].
      destruct Hi2' as (Hk2 & _ & Hm2 & Hv2).
      destruct (Hm2 k) as [r2 Hrec2]; [by rewrite Hc2|].
      destruct (proj2 (Hdom k)) as [r1 Hrec1]; [by eexists|].
      destruct Hi1' as (_ & _ & _ & Hv1).
      rewrite <- Hc2, (Hv2 _ _ Hrec2), <- Hc1, (Hv1 _ _ Hrec1), Hmod'.
      by injection (Hsame _ _ _ Hrec1 Hrec2) as -> ->.
  - intros k.
    destruct (cellRecords s1 !! k) as [r1|] eqn:H1;
      destruct (cellRecords s2 !! k) as [r2|] eqn:H2; simpl.
    + f_equal. by apply (Hsame k).
    + destruct (proj1 (Hdom k)) as [? ?]; [by eexists|]. congruence.
    + destruct (proj2 (Hdom k)) as [? ?]; [by eexists|]. congruence.
    + done.
  - intros i j Hn1 Hn2. unfold s1, s2.
    rewrite !Hshape by done. rewrite Hn1, Hn2.
    case_decide; [|done]. by rewrite !drawCell_popup, Hmod.
  - intros i j r. unfold s1. rewrite Hshape by done.
    case_decide; [|done].
    destruct (cellRecords st1 !! cellKey i j); by intros [= <-].
Qed.

(** X11. After a viewport update in a reachable state the number of cell
    records is the number of rows times the number of columns of the floored
    bounds (zero when the bounds are inverted), and there are at most as many
    cache markers as records: what is materialized is bounded by the
    viewport, however many cells have been visited before. *)
Theorem materialized_count_is_viewport_area st b :
  reachable luck st →
  let st' := (updateVisibleCells luck b st).1 in
  size (cellRecords st') =
    (Z.to_nat (northMax b + 1 - southMin b) *
     Z.to_nat (eastMax b + 1 - westMin b))%nat ∧
  (size (caches st') ≤ size (cellRecords st'))%nat.
Proof.
  intros Hreach st'.
  pose proof (reachable_invariant luck st Hreach) as Hinv.
  pose proof (updateVisibleCells_invariant luck b st Hinv) as Hinv'.
  fold st' in Hinv'. split.
  - rewrite <- size_dom.
    assert (dom (cellRecords st') = list_to_set (keyOf <$> viewCells b))
      as ->.
    { apply set_eq. intros k.
      rewrite elem_of_dom, elem_of_list_to_set. unfold st'.
      by apply updated_records_dom. }
    rewrite size_list_to_set.
    + rewrite length_fmap. apply length_wantedCells.
    + apply NoDup_fmap_2; [apply _|apply NoDup_wantedCells].
  - rewrite <- !size_dom. apply subseteq_size.
    intros k. rewrite !elem_of_dom.
    destruct Hinv' as (_ & _ & Hmat & _). apply Hmat.
Qed.

Lemma exec1_handle ev st st' m :
  handle luck ev st = Some (st', m) → exec1 luck st ev = st'.
Proof. intros H. unfold exec1. by rewrite H. Qed.

(** X12. A picked-up token can be put back.  From a reachable state with an
    empty inventory, picking up the cache of a cell within reach, letting the
    cell leave the viewport and come back into it, and dropping the token on
    the cell again ends with an empty inventory and the same cache on the
    cell: the cell resolves to what it resolved to before, now through an
    explicit overlay entry. *)
Theorem picked_token_can_be_put_back st i j c b1 b2 :
  reachable luck st →
  inventory st = None →
  caches st !! cellKey i j = Some c →
  cellDistance (getPlayerCell st) (i, j) ≤ PROXIMITY_CELLS →
  ¬ inView b1 i j → inView b2 i j →
  let st' := exec luck [ClickPickup i j; MoveEnd b1; MoveEnd b2;
                        ClickDrop i j] st in
  inventory st' = None ∧
  caches st' !! cellKey i j = Some c ∧
  modifiedCaches st' !! cellKey i j = Some (Some (value c)) ∧
  resolve luck (modifiedCaches st') i j = resolve luck (modifiedCaches st) i j.
Proof.
  intros Hreach Hinv Hc Hdist Hout Hin st'.
  pose proof (reachable_invariant luck st Hreach) as Hinvar.
  (* the pick-up *)
  set (st1 := setModified (<[cellKey i j := None]> (modifiedCaches st))
                (setInventory (Some (value c))
                   (setCaches (delete (cellKey i j) (caches st)) st))).
  assert (handle luck (ClickPickup i j) st = Some (st1, Some PickedUp)) as H1.
  { simpl. unfold requestPickup. rewrite Hc. simpl. unfold pickupClick.
    rewrite (proj2 (Z.leb_le _ _) Hdist), Hinv. done. }
  assert (reachable luck st1) as Hreach1
    by by apply (reachable_step luck st _ st1 _ Hreach H1).
  pose proof (reachable_invariant luck st1 Hreach1) as Hinv1.
  (* the cell leaves the viewport *)
  set (st2 := (updateVisibleCells luck b1 st1).1).
  destruct (updateVisibleCells_frame luck b1 st1) as (Hp2 & Hi2 & Hm2 & _).
  fold st2 in Hp2, Hi2, Hm2.
  pose proof (updateVisibleCells_invariant luck b1 st1 Hinv1) as Hinv2.
  fold st2 in Hinv2.
  assert (cellRecords st2 !! cellKey i j = None) as Hrec2.
  { apply eq_None_not_Some. unfold st2.
    rewrite updated_records_dom, elem_of_viewKeys by done.
    intros (i' & j' & Hk & Hv). apply cellKey_inj in Hk as [-> ->]. done. }
  (* the cell comes back *)
  set (st3 := (updateVisibleCells luck b2 st2).1).
  destruct (updateVisibleCells_frame luck b2 st2) as (Hp3 & Hi3 & Hm3 & _).
  fold st3 in Hp3, Hi3, Hm3.
  assert (cellRecords st3 !! cellKey i j =
          Some {| cr_i := i; cr_j := j; rect := DropPopup |}) as Hrec3.
  { destruct (updated_records_lookup luck b2 st2 (cellKey i j) Hinv2)
      as [Hr _].
    fold st3 in Hr. rewrite Hr, decide_True.
    - rewrite renderAll_draws by (by rewrite ?elem_of_viewCells).
      rewrite drawCell_popup, Hm2. simpl. by rewrite lookup_insert_eq.
    - apply elem_of_viewKeys. by exists i, j. }
  (* the drop *)
  assert (playerMarker st3 = playerMarker st) as Hp by by rewrite Hp3, Hp2.
  assert (inventory st3 = Some (value c)) as Hi by by rewrite Hi3, Hi2.
  assert (modifiedCaches st3 = <[cellKey i j := None]> (modifiedCaches st))
    as Hm by by rewrite Hm3, Hm2.
  assert (st' = (dropClick i j st3).1) as ->.
  { unfold st', exec. cbn [foldl].
    rewrite (exec1_handle _ _ _ _ H1).
    rewrite (exec1_handle (MoveEnd b1) st1 st2 None) by done.
    rewrite (exec1_handle (MoveEnd b2) st2 st3 None) by done.
    apply (exec1_handle _ _ _ (Some (dropClick i j st3).2)).
    unfold handle, requestDrop. rewrite Hrec3.
    destruct (dropClick i j st3). reflexivity. }
  clearbody st3. clear Hp3 Hi3 Hm3 Hrec3.
  unfold dropClick, getPlayerCell. rewrite Hp, Hi.
  fold (getPlayerCell st).
  rewrite (proj2 (Z.ltb_ge _ _) Hdist). simpl. rewrite Hm.
  rewrite !lookup_insert_eq, resolve_insert_eq.
  split; [done|]. split; [by destruct c|]. split; [done|].
  destruct (invariant_cache_resolved luck st _ c Hinvar Hc)
    as (i' & j' & Hk & Hr).
  apply cellKey_inj in Hk as [<- <-]. by rewrite Hr.
Qed.

(** X13. Drop does not look for a resident entry.  The rectangle of a cell
    keeps its drop popup after a drop, so while the cell stays in the
    viewport a second token can be dropped on it: the drop succeeds, the
    entry of the cell in [caches] and in the overlay now holds the carried
    value instead of the resident one, the inventory is empty, and nothing
    else in the state changes: the other entries of [caches] and of the
    overlay, all of [cellRecords], the player's position and the win flag
    are as before.  (This is about the program's maps; the Leaflet marker of
    the replaced entry is not modelled.) *)
Theorem drop_replaces_resident_token st i j r c w :
  cellRecords st !! cellKey i j = Some r → rect r = DropPopup →
  caches st !! cellKey i j = Some c →
  inventory st = Some w →
  cellDistance (getPlayerCell st) (i, j) ≤ PROXIMITY_CELLS →
  let st' := droppedOn (cellKey i j) w st in
  requestDrop i j st = Some (st', Dropped w) ∧
  caches st' = <[cellKey i j := {| value := w |}]> (caches st) ∧
  modifiedCaches st' = <[cellKey i j := Some w]> (modifiedCaches st) ∧
  caches st' !! cellKey i j = Some {| value := w |} ∧
  modifiedCaches st' !! cellKey i j = Some (Some w) ∧
  inventory st' = None ∧
  cellRecords st' = cellRecords st ∧
  playerMarker st' = playerMarker st ∧
  hasCrafted st' = hasCrafted st ∧
  (∀ k, k ≠ cellKey i j →
        caches st' !! k = caches st !! k ∧
        modifiedCaches st' !! k = modifiedCaches st !! k).
Proof.
  intros Hrec Hpop Hc Hinv Hdist st'. split.
  - unfold requestDrop. rewrite Hrec. destruct r as [ri rj p].
    simpl in Hpop. subst p. unfold dropClick.
    by rewrite (proj2 (Z.ltb_ge _ _) Hdist), Hinv.
  - unfold st', droppedOn. simpl. rewrite !lookup_insert_eq.
    repeat (split; [done|]).
    intros k Hk. by rewrite !lookup_insert_ne.
Qed.

(** X14. Removing and rendering are idempotent and safe on absent cells:
    [removeCell] on a cell with neither record nor cache entry changes
    nothing, and removing twice is removing once; [cellRendered] on a cell
    that already has a record changes nothing, on a cell without a record it
    files the record of the cell with the rectangle [drawCell] returns in the
    state [drawCell] leaves, and rendering twice is rendering once.  After
    [removeCell] the cell has neither record nor cache entry, and no other
    key of [cellRecords] or [caches] is affected. *)
Theorem remove_and_render_idempotent st i j :
  (cellRecords st !! cellKey i j = None → caches st !! cellKey i j = None →
   removeCell i j st = st) ∧
  removeCell i j (removeCell i j st) = removeCell i j st ∧
  (∀ r, cellRecords st !! cellKey i j = Some r →
        cellRendered luck i j st = st) ∧
  (cellRecords st !! cellKey i j = None →
   cellRendered luck i j st =
     setRecords (<[cellKey i j := {| cr_i := i; cr_j := j;
                                     rect := (drawCell luck i j st).1 |}]>
                   (cellRecords st))
       (drawCell luck i j st).2) ∧
  cellRendered luck i j (cellRendered luck i j st) = cellRendered luck i j st ∧
  cellRecords (removeCell i j st) !! cellKey i j = None ∧
  caches (removeCell i j st) !! cellKey i j = None ∧
  (∀ k, k ≠ cellKey i j →
        cellRecords (removeCell i j st) !! k = cellRecords st !! k ∧
        caches (removeCell i j st) !! k = caches st !! k) ∧
  playerMarker (removeCell i j st) = playerMarker st ∧
  inventory (removeCell i j st) = inventory st ∧
  modifiedCaches (removeCell i j st) = modifiedCaches st ∧
  hasCrafted (removeCell i j st) = hasCrafted st.
Proof.
  split; [|split; [|split; [|split; [|split; [|split; [|split; [|split]]]]]]].
  - intros Hr Hc. unfold removeCell. by rewrite Hr, Hc.
  - rewrite !removeCell_dropKey. unfold dropKey, setCaches, setRecords.
    simpl. by rewrite !delete_delete_eq.
  - intros r Hrec. by apply (cellRendered_has luck _ _ _ r).
  - intros Hrec. unfold cellRendered. rewrite Hrec.
    destruct (drawCell luck i j st) as [p st1] eqn:Hd. simpl.
    pose proof (drawCell_frame luck i j st) as (_ & _ & _ & Hr & _).
    rewrite Hd in Hr. simpl in Hr. by rewrite Hr.
  - destruct (cellRecords st !! cellKey i j) as [r|] eqn:Hrec.
    + by rewrite !(cellRendered_has luck _ _ _ r Hrec).
    + apply (cellRendered_has luck _ _ _
               {| cr_i := i; cr_j := j; rect := (drawCell luck i j st).1 |}).
      by apply cellRendered_records_key.
  - rewrite removeCell_dropKey. apply lookup_delete_eq.
  - rewrite removeCell_dropKey. apply lookup_delete_eq.
  - intros k Hk. rewrite removeCell_dropKey. simpl.
    by rewrite !lookup_delete_ne.
  - by rewrite removeCell_dropKey.
Qed.

Lemma valueFill_inj v w :
  1 ≤ v ≤ 5 → 1 ≤ w ≤ 5 → valueFill v = valueFill w → v = w.
Proof.
  intros Hv Hw.
  assert (v = 1 ∨ v = 2 ∨ v = 3 ∨ v = 4 ∨ v = 5) as Hcv by lia.
  assert (w = 1 ∨ w = 2 ∨ w = 3 ∨ w = 4 ∨ w = 5) as Hcw by lia.
  destruct Hcv as [->|[->|[->|[->| ->]]]];
    destruct Hcw as [->|[->|[->|[->| ->]]]]; vm_compute; congruence.
Qed.

(** X15. The marker colour tells whether a pick-up would work.  For a cell
    with a cache, [updateCacheMarkerColor] gives the marker the green stroke
    exactly when a click on "Pick up" would succeed right now (cell within
    the proximity radius and inventory empty), and [updateAllCacheColors]
    styles that marker the same way.  The fill colour tells the values 1 to 5
    apart, and every value outside that range (every crafted 6, 8, 10, ...)
    gets the same grey.  A key without a cache is not styled. *)
Theorem marker_colour_matches_pickup st i j entry :
  caches st !! cellKey i j = Some entry →
  ∃ style,
    updateCacheMarkerColor (cellKey i j) st = Some style ∧
    updateAllCacheColors st !! cellKey i j = Some style ∧
    (color style = "#2a9d41"%string ↔
     ∃ st', requestPickup i j st = Some (st', PickedUp)) ∧
    fillColor style = valueFill (value entry) ∧
    (∀ v w, 1 ≤ v ≤ 5 → 1 ≤ w ≤ 5 → valueFill v = valueFill w → v = w) ∧
    (∀ v, ¬ 1 ≤ v ≤ 5 → valueFill v = "#cccccc"%string) ∧
    (∀ k, caches st !! k = None →
          updateCacheMarkerColor k st = None ∧
          updateAllCacheColors st !! k = None).
Proof.
  intros Hc.
  assert (∀ k, updateAllCacheColors st !! k = updateCacheMarkerColor k st)
    as Hall.
  { intros k. unfold updateAllCacheColors. rewrite map_lookup_imap.
    unfold updateCacheMarkerColor.
    by destruct (caches st !! k). }
  unfold updateCacheMarkerColor at 1. rewrite Hc, parseKey_cellKey.
  eexists. split; [done|]. split.
  { rewrite Hall. unfold updateCacheMarkerColor.
    by rewrite Hc, parseKey_cellKey. }
  simpl. split; [|split; [done|split; [apply valueFill_inj|split]]].
  - unfold requestPickup. rewrite Hc. simpl. unfold pickupClick.
    destruct (cellDistance (getPlayerCell st) (i, j) <=? PROXIMITY_CELLS);
      destruct (inventory st); simpl; split;
      try done; try (by intros [? [=]]); by eexists.
  - intros v Hv. unfold valueFill.
    destruct (Z.eqb_spec v 1); [lia|]. destruct (Z.eqb_spec v 2); [lia|].
    destruct (Z.eqb_spec v 3); [lia|]. destruct (Z.eqb_spec v 4); [lia|].
    destruct (Z.eqb_spec v 5); [lia|]. done.
  - intros k Hk. rewrite Hall. unfold updateCacheMarkerColor.
    by rewrite Hk.
Qed.

(** X16. A viewport update touches nothing but the materialized view: for
    every state and all bounds, [updateVisibleCells] leaves the player's
    position, the inventory, the overlay and the win flag as they were, and
    so does a key press apart from moving the player. *)
Theorem viewport_update_frame st b :
  playerMarker (updateVisibleCells luck b st).1 = playerMarker st ∧
  inventory (updateVisibleCells luck b st).1 = inventory st ∧
  modifiedCaches (updateVisibleCells luck b st).1 = modifiedCaches st ∧
  hasCrafted (updateVisibleCells luck b st).1 = hasCrafted st ∧
  (∀ di dj,
     inventory (movePlayerByCells luck di dj b st) = inventory st ∧
     modifiedCaches (movePlayerByCells luck di dj b st) = modifiedCaches st ∧
     hasCrafted (movePlayerByCells luck di dj b st) = hasCrafted st).
Proof.
  destruct (updateVisibleCells_frame luck b st) as (Hp & Hi & Hm & Hc).
  repeat (split; [done|]).
  intros di dj. unfold movePlayerByCells.
  match goal with
  | |- context [updateVisibleCells luck b ?s] =>
      by destruct (updateVisibleCells_frame luck b s) as (_ & -> & -> & ->)
  end.
Qed.

End Extras.

(** ** Crafting inside the list inventory *)

Lemma inventoryTotal_acc (l : list Z) (s : Z) :
  foldl (λ s v, s + v) s l = s + inventoryTotal l.
Proof.
  unfold inventoryTotal. revert s. induction l as [|x l IH]; intros s; simpl.
  - lia.
  - rewrite (IH (s + x)), (IH (0 + x)). lia.
Qed.

Lemma inventoryTotal_app (a b : list Z) :
  inventoryTotal (a ++ b) = inventoryTotal a + inventoryTotal b.
Proof.
  unfold inventoryTotal at 1. rewrite foldl_app.
  fold (inventoryTotal a). apply inventoryTotal_acc.
Qed.

Lemma inventoryTotal_cons (x : Z) (l : list Z) :
  inventoryTotal (x :: l) = x + inventoryTotal l.
Proof. apply (inventoryTotal_app [x] l). Qed.

Lemma groupInventory_acc (l : list Z) (counts : gmap Z nat) (v : Z) :
  foldl (λ counts v, <[v := (default 0 (counts !! v) + 1)%nat]> counts)
    counts l !! v =
  if decide (count_occ Z.eq_dec l v = 0%nat) then counts !! v
  else Some (default 0 (counts !! v) + count_occ Z.eq_dec l v)%nat.
Proof.
  revert counts. induction l as [|x l IH]; intros counts; [done|].
  cbn [foldl]. rewrite IH. cbn [count_occ].
  destruct (Z.eq_dec x v) as [->|Hne].
  - rewrite !lookup_insert_eq. cbn [default from_option id].
    destruct (decide (S (count_occ Z.eq_dec l v) = 0%nat)) as [?|_]; [done|].
    destruct (decide (count_occ Z.eq_dec l v = 0%nat)) as [Hz|Hnz];
      [rewrite Hz|]; f_equal; lia.
  - by rewrite lookup_insert_ne.
Qed.

Lemma craftLoop_done value n inventory removed :
  (2 ≤ removed)%nat → craftLoop value n inventory removed = inventory.
Proof.
  intros H. destruct n; [done|]. simpl.
  by rewrite (proj2 (Nat.ltb_ge _ _) H).
Qed.

Lemma craftLoop_skip value (l l3 rest : list Z) removed :
  value ∉ l3 →
  craftLoop value (length (l ++ l3)) (l ++ l3 ++ rest) removed =
  craftLoop value (length l) (l ++ l3 ++ rest) removed.
Proof.
  revert rest. induction l3 as [|x l3 IH] using rev_ind; intros rest Hnot.
  { by rewrite app_nil_r. }
  apply not_elem_of_app in Hnot as [Hl3 Hx].
  apply not_elem_of_cons in Hx as [Hx _].
  destruct (Nat.ltb_spec removed 2) as [Hlt|Hge];
    [|by rewrite !craftLoop_done].
  rewrite (assoc_L (++) l l3 [x]), length_app. simpl.
  rewrite Nat.add_1_r. cbn [craftLoop].
  rewrite (proj2 (Nat.ltb_lt _ _) Hlt).
  rewrite <- !(assoc_L (++)). simpl.
  rewrite (assoc_L (++) l l3 (x :: rest)), list_lookup_middle by done.
  rewrite (proj2 (Z.eqb_neq x value)) by done.
  rewrite <- (assoc_L (++)). by apply IH.
Qed.

Lemma craftLoop_hit value (l rest : list Z) removed :
  (removed < 2)%nat →
  craftLoop value (S (length l)) (l ++ value :: rest) removed =
  craftLoop value (length l) (l ++ rest) (S removed).
Proof.
  intros Hlt. cbn [craftLoop]. rewrite (proj2 (Nat.ltb_lt _ _) Hlt).
  rewrite list_lookup_middle by done.
  by rewrite Z.eqb_refl, delete_middle.
Qed.

Lemma last_two_occurrences (value : Z) (l : list Z) :
  (2 ≤ count_occ Z.eq_dec l value)%nat →
  ∃ l1 l2 l3, l = l1 ++ value :: l2 ++ value :: l3 ∧
              (value ∉ l2) ∧ (value ∉ l3).
Proof.
  intros Hcount.
  assert (value ∈ l) as Hin.
  { apply list_elem_of_In, (count_occ_In Z.eq_dec). lia. }
  apply list_elem_of_split_r in Hin as (a & l3 & -> & Hl3).
  rewrite count_occ_app in Hcount. cbn [count_occ] in Hcount.
  destruct (Z.eq_dec value value) as [_|]; [|done].
  assert (count_occ Z.eq_dec l3 value = 0%nat) as H3.
  { apply count_occ_not_In. by rewrite <- list_elem_of_In. }
  assert (value ∈ a) as Ha.
  { apply list_elem_of_In, (count_occ_In Z.eq_dec). lia. }
  apply list_elem_of_split_r in Ha as (l1 & l2 & -> & Hl2).
  exists l1, l2, l3. by rewrite <- (assoc_L (++)).
Qed.

Lemma groupInventory_lookup (inventory : list Z) (value : Z) :
  groupInventory inventory !! value =
    if decide (count_occ Z.eq_dec inventory value = 0%nat) then None
    else Some (count_occ Z.eq_dec inventory value).
Proof.
  unfold groupInventory. rewrite groupInventory_acc.
  by rewrite lookup_empty.
Qed.

Lemma canCraft_count (inventory : list Z) (value : Z) :
  canCraft inventory value = true ↔
  (2 ≤ count_occ Z.eq_dec inventory value)%nat.
Proof.
  unfold canCraft. rewrite groupInventory_lookup.
  case_decide as Hz; cbn [default from_option id].
  - rewrite Hz. split; [done|lia].
  - apply Nat.leb_le.
Qed.

(** X17. [groupInventory] counts occurrences: the count it holds for a value
    is the number of times the value is in the inventory, a value that is
    not in the inventory has no entry, and [canCraft] is true exactly when
    the value occurs at least twice. *)
Theorem groupInventory_counts (inventory : list Z) (value : Z) :
  default 0%nat (groupInventory inventory !! value) =
    count_occ Z.eq_dec inventory value ∧
  (groupInventory inventory !! value = None ↔ value ∉ inventory) ∧
  (canCraft inventory value = true ↔
   (2 ≤ count_occ Z.eq_dec inventory value)%nat).
Proof.
  split; [|split].
  - rewrite groupInventory_lookup. by case_decide.
  - rewrite groupInventory_lookup, list_elem_of_In,
      (count_occ_not_In Z.eq_dec).
    by case_decide.
  - apply canCraft_count.
Qed.

Lemma doCraft_last_two (value : Z) (l1 l2 l3 : list Z) :
  value ∉ l2 → value ∉ l3 →
  doCraft value (l1 ++ value :: l2 ++ value :: l3) =
    (l1 ++ l2 ++ l3 ++ [value * 2], true).
Proof.
  intros Hl2 Hl3. unfold doCraft.
  assert (canCraft (l1 ++ value :: l2 ++ value :: l3) value = true) as ->.
  { apply canCraft_count.
    change (value :: l2 ++ value :: l3)
      with ([value] ++ l2 ++ [value] ++ l3).
    rewrite !count_occ_app. simpl.
    destruct (Z.eq_dec value value); [lia|done]. }
  cbn [negb].
  f_equal. rewrite !(assoc_L (++) _ _ [value * 2]). f_equal.
  (* skip l3, remove the later token *)
  pose proof (craftLoop_skip value (l1 ++ value :: l2 ++ [value]) l3 []
                0 Hl3) as H1.
  rewrite app_nil_r in H1.
  assert ((l1 ++ value :: l2 ++ [value]) ++ l3 =
          l1 ++ value :: l2 ++ value :: l3) as E1.
  { rewrite <- (assoc_L (++)). simpl. by rewrite <- (assoc_L (++)). }
  rewrite E1 in H1. rewrite H1. clear H1 E1.
  assert (l1 ++ value :: l2 ++ value :: l3 =
          (l1 ++ value :: l2) ++ value :: l3) as E2.
  { by rewrite <- (assoc_L (++)). }
  assert (length (l1 ++ value :: l2 ++ [value]) =
          S (length (l1 ++ value :: l2))) as E3.
  { rewrite !length_app. simpl. rewrite length_app. simpl. lia. }
  rewrite E2, E3, craftLoop_hit by lia. clear E2 E3.
  (* skip l2, remove the earlier token *)
  pose proof (craftLoop_skip value (l1 ++ [value]) l2 l3 1 Hl2) as H3.
  assert ((l1 ++ [value]) ++ l2 = l1 ++ value :: l2) as E4.
  { by rewrite <- (assoc_L (++)). }
  assert ((l1 ++ [value]) ++ l2 ++ l3 = (l1 ++ value :: l2) ++ l3) as E5.
  { by rewrite <- !(assoc_L (++)). }
  rewrite E4, E5 in H3. rewrite H3. clear H3.
  assert (length (l1 ++ [value]) = S (length l1)) as E6.
  { rewrite length_app. simpl. lia. }
  assert ((l1 ++ value :: l2) ++ l3 = l1 ++ value :: (l2 ++ l3)) as E7.
  { by rewrite <- (assoc_L (++)). }
  rewrite E6, E7, craftLoop_hit by lia.
  by rewrite craftLoop_done.
Qed.

(** X18. [doCraft] merges the last two tokens of the value.  With fewer
    than two tokens of [value] it returns false and leaves the inventory as
    it was.  With at least two it returns true; the inventory loses the last
    two occurrences of [value], keeps every other token in its order, and
    gains [value * 2] at the end; so it has one token less and the total
    shown in the status line is unchanged. *)
Theorem doCraft_merges_last_two (value : Z) (inventory : list Z) :
  ((count_occ Z.eq_dec inventory value < 2)%nat →
   doCraft value inventory = (inventory, false)) ∧
  ((2 ≤ count_occ Z.eq_dec inventory value)%nat →
   ∃ l1 l2 l3,
     inventory = l1 ++ value :: l2 ++ value :: l3 ∧
     (value ∉ l2) ∧ (value ∉ l3) ∧
     doCraft value inventory = (l1 ++ l2 ++ l3 ++ [value * 2], true) ∧
     inventoryTotal (doCraft value inventory).1 = inventoryTotal inventory ∧
     S (length (doCraft value inventory).1) = length inventory).
Proof.
  pose proof (canCraft_count inventory value) as Hcan.
  split.
  - intros Hlt. unfold doCraft.
    destruct (canCraft inventory value) eqn:Hc; [|done].
    destruct Hcan as [Hcan _]. specialize (Hcan eq_refl). lia.
  - intros Hge.
    destruct (last_two_occurrences value inventory Hge)
      as (l1 & l2 & l3 & -> & Hl2 & Hl3).
    exists l1, l2, l3. split; [done|]. split; [done|]. split; [done|].
    pose proof (doCraft_last_two value l1 l2 l3 Hl2 Hl3) as Hdo.
    split; [done|]. rewrite Hdo. simpl. split.
    + rewrite !inventoryTotal_app, !inventoryTotal_cons, !inventoryTotal_app,
        !inventoryTotal_cons.
      unfold inventoryTotal at 4. simpl. lia.
    + rewrite !length_app. simpl. rewrite !length_app. simpl. lia.
Qed.

Lemma count_occ_Z_one (x y : Z) :
  count_occ Z.eq_dec [x] y = if decide (y = x) then 1%nat else 0%nat.
Proof.
  simpl. destruct (Z.eq_dec x y) as [->|Hne].
  - by rewrite decide_True.
  - by rewrite decide_False.
Qed.

(** X19. The craft button never reports "Craft failed".  A click on the
    craft button of [value] answers "invalid" exactly when the value is not
    positive, "not enough" exactly when the value is positive and fewer than
    two such tokens are carried, and otherwise "crafted": since [canCraft]
    was checked just before, [doCraft] cannot return false.  After a
    successful craft the inventory holds two tokens of [value] fewer, one
    token of [value * 2] more, and as many of every other value as before;
    after a refusal it is unchanged. *)
Theorem craft_button_never_fails (value : Z) (inventory : list Z) :
  (craftClick value inventory).2 ≠ CraftFailed ∧
  ((craftClick value inventory).2 = InvalidToken ↔ value ≤ 0) ∧
  ((craftClick value inventory).2 = NotEnough ↔
   0 < value ∧ (count_occ Z.eq_dec inventory value < 2)%nat) ∧
  ((craftClick value inventory).2 = CraftedOk ↔
   0 < value ∧ (2 ≤ count_occ Z.eq_dec inventory value)%nat) ∧
  ((craftClick value inventory).2 ≠ CraftedOk →
   (craftClick value inventory).1 = inventory) ∧
  ((craftClick value inventory).2 = CraftedOk →
   (craftClick value inventory).1 = (doCraft value inventory).1 ∧
   ∀ x, Z.of_nat (count_occ Z.eq_dec (craftClick value inventory).1 x) =
        Z.of_nat (count_occ Z.eq_dec inventory x)
        - (if decide (x = value) then 2 else 0)
        + (if decide (x = value * 2) then 1 else 0)).
Proof.
  pose proof (canCraft_count inventory value) as Hcan.
  unfold craftClick.
  destruct (Z.leb_spec value 0) as [Hle|Hpos]; simpl.
  { split; [done|]. split; [done|].
    split; [split; [done|lia]|]. split; [split; [done|lia]|]. done. }
  destruct (canCraft inventory value) eqn:Hc; simpl.
  2: { assert ((count_occ Z.eq_dec inventory value < 2)%nat) as Hlt.
       { destruct (Nat.lt_ge_cases (count_occ Z.eq_dec inventory value) 2)
           as [?|Hge]; [done|]. apply Hcan in Hge. done. }
       split; [done|]. split; [split; [done|lia]|].
       split; [done|]. split; [|done]. split; [done|]. lia. }
  destruct Hcan as [Hcan _]. specialize (Hcan eq_refl).
  destruct (last_two_occurrences value inventory Hcan)
    as (l1 & l2 & l3 & Heq & Hl2 & Hl3).
  subst inventory. rewrite (doCraft_last_two value l1 l2 l3 Hl2 Hl3).
  simpl. split; [done|]. split; [split; [done|lia]|].
  split; [split; [done|lia]|]. split; [done|]. split; [done|].
  intros _. split; [done|]. intros x.
  change (value :: l2 ++ value :: l3) with ([value] ++ l2 ++ [value] ++ l3).
  rewrite !count_occ_app, !count_occ_Z_one.
  repeat case_decide; lia.
Qed.

Example doCraft_example :
  doCraft 2 [2; 1; 2; 3; 2] = ([2; 1; 3; 4], true) ∧
  doCraft 3 [2; 1; 2; 3; 2] = ([2; 1; 2; 3; 2], false).
Proof. split; reflexivity. Qed.

(** ** The further properties at work on the concrete world *)

Lemma demoNextToThree_reachable : reachable demoLuck demoNextToThree.
Proof. apply reachable_exec, demoStart_reachable. Qed.

Lemma demoDroppedOnce_reachable : reachable demoLuck demoDroppedOnce.
Proof. apply reachable_exec, demoReturned_reachable. Qed.

(** Pressing W at the start puts the player on cell (1,0). *)
Lemma player_cell_follows_keys_witness :
  getPlayerCell (movePlayerByCells demoLuck 1 0 (viewAt (-2) 2 (-2) 2)
                   demoStart) = (1, 0).
Proof.
  destruct (player_cell_follows_keys demoLuck
              (Keydown KeyW (viewAt (-2) 2 (-2) 2)) demoStart
              (movePlayerByCells demoLuck 1 0 (viewAt (-2) 2 (-2) 2)
                 demoStart) None) as [H _].
  - reflexivity.
  - rewrite H. run.
Defined.

(** Carrying, two cells from the cache of (0,2): too far, nothing changes. *)
Lemma click_message_is_truthful_witness :
  handle demoLuck (ClickPickup 0 2) demoCarrying =
    Some (demoCarrying, Some (TooFar 2)) ∧
  PROXIMITY_CELLS < 2.
Proof.
  split; [run|].
  destruct (click_message_is_truthful demoLuck (ClickPickup 0 2) demoCarrying
              demoCarrying (TooFar 2)) as (_ & H & _).
  - run.
  - exact H.
Defined.

Lemma reachable_caches_match_resolver_witness :
  caches demoCarrying !! cellKey 0 0 = None ∧
  caches demoCarrying !! cellKey 0 1 = Some {| value := 1 |}.
Proof.
  destruct (reachable_caches_match_resolver demoLuck demoCarrying)
    as (H & _).
  - exact demoCarrying_reachable.
  - split; [rewrite (H 0 0)|rewrite (H 0 1)]; run.
Defined.

Lemma token_values_only_double_witness :
  inventory demoCarrying = Some 1 ∧ tokenValue 1.
Proof.
  split; [run|].
  destruct (token_values_only_double demoLuck demoCarrying) as (H & _).
  - exact demoCarrying_reachable.
  - apply (H 1). run.
Defined.

(** Placing the carried 3 on the cache of value 3 at (2,0) crafts 6 and
    wins. *)
Lemma win_only_by_crafting_witness :
  hasCrafted demoNextToThree = false ∧
  hasCrafted (placeClick 2 0 {| value := 3 |} demoNextToThree).1 = true ∧
  ∃ i j v, ClickPlace 2 0 = ClickPlace i j ∧ WIN_THRESHOLD ≤ v * 2.
Proof.
  split; [run|]. split; [run|].
  destruct (win_only_by_crafting demoLuck (ClickPlace 2 0) demoNextToThree
              (placeClick 2 0 {| value := 3 |} demoNextToThree).1
              (Some (Crafted 6))) as (i & j & v & H1 & _ & _ & _ & H2).
  - run.
  - run.
  - run.
  - exists i, j, v. split; [exact H1|exact H2].
Defined.

Lemma overlay_written_only_in_reach_witness :
  modifiedCaches demoCarrying !! cellKey 0 0 ≠
    modifiedCaches demoStart !! cellKey 0 0 ∧
  ∃ i j, cellKey 0 0 = cellKey i j ∧
         cellDistance (getPlayerCell demoStart) (i, j) ≤ PROXIMITY_CELLS.
Proof.
  split; [vm_compute; discriminate|].
  destruct (overlay_written_only_in_reach demoLuck (ClickPickup 0 0)
              demoStart demoCarrying (Some PickedUp) (cellKey 0 0))
    as (_ & H).
  - exact demoStart_reachable.
  - run.
  - destruct H as (i & j & Hk & _ & _ & Hd); [vm_compute; discriminate|].
    exists i, j. split; [exact Hk|exact Hd].
Defined.

Lemma viewport_update_idempotent_witness :
  updateVisibleCells demoLuck (viewAt (-1) 3 (-1) 3)
    (updateVisibleCells demoLuck (viewAt (-1) 3 (-1) 3) demoStart).1 =
  ((updateVisibleCells demoLuck (viewAt (-1) 3 (-1) 3) demoStart).1,
   {| enteredCells := []; leftCells := [] |}).
Proof.
  apply (viewport_update_idempotent demoLuck demoStart (viewAt (-1) 3 (-1) 3)).
  exact demoStart_reachable.
Defined.

(** The start state, and the start state after the viewport went away and
    came back: the same caches are shown. *)
Lemma updated_caches_depend_on_overlay_only_witness :
  caches (updateVisibleCells demoLuck (viewAt (-2) 2 (-2) 2) initial).1 =
  caches (updateVisibleCells demoLuck (viewAt (-2) 2 (-2) 2)
            (exec demoLuck [MoveEnd (viewAt 5 6 5 6)] demoStart)).1.
Proof.
  destruct (updated_caches_depend_on_overlay_only demoLuck initial
              (exec demoLuck [MoveEnd (viewAt 5 6 5 6)] demoStart)
              (viewAt (-2) 2 (-2) 2)) as (H & _).
  - exact (reachable_initial demoLuck).
  - apply reachable_exec, demoStart_reachable.
  - run.
  - exact H.
Defined.

Lemma materialized_count_is_viewport_area_witness :
  size (cellRecords
          (updateVisibleCells demoLuck (viewAt (-1) 3 (-1) 3) demoStart).1) =
  25%nat.
Proof.
  destruct (materialized_count_is_viewport_area demoLuck demoStart
              (viewAt (-1) 3 (-1) 3)) as (H & _).
  - exact demoStart_reachable.
  - rewrite H. run.
Defined.

Lemma picked_token_can_be_put_back_witness :
  let st' := exec demoLuck [ClickPickup 0 0; MoveEnd (viewAt 5 6 5 6);
                            MoveEnd (viewAt (-2) 2 (-2) 2); ClickDrop 0 0]
               demoStart in
  inventory st' = None ∧
  caches st' !! cellKey 0 0 = Some {| value := 1 |} ∧
  modifiedCaches st' !! cellKey 0 0 = Some (Some 1).
Proof.
  destruct (picked_token_can_be_put_back demoLuck demoStart 0 0
              {| value := 1 |} (viewAt 5 6 5 6) (viewAt (-2) 2 (-2) 2))
    as (H1 & H2 & H3 & _).
  - exact demoStart_reachable.
  - run.
  - run.
  - run_le.
  - intros [[H _] _]. vm_compute in H. apply H. reflexivity.
  - vm_compute. repeat split; discriminate.
  - split; [exact H1|]. split; [exact H2|exact H3].
Defined.

(** The token 1 lies on (0,0) again; the player, carrying 3, drops it on the
    same cell: the 1 is gone. *)
Lemma drop_replaces_resident_token_witness :
  caches demoDroppedOnce !! cellKey 0 0 = Some {| value := 1 |} ∧
  inventory demoDroppedOnce = Some 3 ∧
  let st' := droppedOn (cellKey 0 0) 3 demoDroppedOnce in
  requestDrop 0 0 demoDroppedOnce = Some (st', Dropped 3) ∧
  caches st' !! cellKey 0 0 = Some {| value := 3 |} ∧
  inventory st' = None ∧
  cellRecords st' = cellRecords demoDroppedOnce.
Proof.
  split; [run|]. split; [run|].
  destruct (drop_replaces_resident_token demoDroppedOnce 0 0
              {| cr_i := 0; cr_j := 0; rect := DropPopup |}
              {| value := 1 |} 3)
    as (H1 & _ & _ & H2 & _ & H3 & H4 & _).
  - run.
  - reflexivity.
  - run.
  - run.
  - run_le.
  - intros st'. split; [exact H1|]. split; [exact H2|].
    split; [exact H3|exact H4].
Defined.

(** At the start the cache of (0,1) can be picked up and is green. *)
Lemma marker_colour_matches_pickup_witness :
  ∃ style, updateCacheMarkerColor (cellKey 0 1) demoStart = Some style ∧
           color style = "#2a9d41"%string.
Proof.
  destruct (marker_colour_matches_pickup demoStart 0 1 {| value := 1 |})
    as (style & H1 & _ & H2 & _).
  - run.
  - exists style. split; [exact H1|]. apply H2.
    exists (pickupClick 0 1 {| value := 1 |} demoStart).1. run.
Defined.
